(** * aldryn_newsblog.managers: the article query helpers

    A shallow embedding of [aldryn_newsblog/managers.py]: the queryset
    method [published] and the manager methods [get_months],
    [get_authors] and [get_tags], over an explicit relational store.

    The ORM calls of the source are embedded as the row operations they
    denote (selection, inner join, grouped count, ordering); the Python
    side of the source ([Counter], [set], [sorted], [dict], the list
    comprehension building the month records) is embedded step by step.
    Queries run in a small state-and-exception monad over a world made
    of the store and the log of the statements sent to it. *)

From stdpp Require Import gmap strings list sorting.
From Stdlib Require Import ZArith Lia.

Open Scope Z_scope.

(** ** Python values used by the module *)

(** [datetime.datetime]: the fields of a publishing date. *)
Record datetime := mk_datetime {
  dt_year : Z; dt_month : Z; dt_day : Z;
  dt_hour : Z; dt_minute : Z; dt_second : Z
}.

(** [datetime.date]. *)
Record date := mk_date { date_year : Z; date_month : Z; date_day : Z }.

#[global] Instance datetime_eq_dec : EqDecision datetime.
Proof. solve_decision. Defined.
#[global] Instance date_eq_dec : EqDecision date.
Proof. solve_decision. Defined.

(** The exceptions the embedded code can raise. *)
Inductive exn := ValueError | KeyError.

Inductive outcome (A : Type) :=
  | Ok (a : A)
  | Raise (e : exn).
Arguments Ok {A} a.
Arguments Raise {A} e.

(** [datetime.MINYEAR], [datetime.MAXYEAR] and the calendar checks of the
    [date] constructor. *)
Definition MINYEAR : Z := 1.
Definition MAXYEAR : Z := 9999.

Definition is_leap (y : Z) : bool :=
  (y mod 4 =? 0) && (negb (y mod 100 =? 0) || (y mod 400 =? 0)).

Definition days_in_month (y m : Z) : Z :=
  if m =? 2 then (if is_leap y then 29 else 28)
  else if (m =? 4) || (m =? 6) || (m =? 9) || (m =? 11) then 30
  else 31.

Definition valid_ymd (y m d : Z) : bool :=
  (MINYEAR <=? y) && (y <=? MAXYEAR) &&
  (1 <=? m) && (m <=? 12) &&
  (1 <=? d) && (d <=? days_in_month y m).

(** [datetime.date(year=y, month=m, day=d)]: [ValueError] outside the
    calendar. *)
Definition date_new (y m d : Z) : outcome date :=
  if valid_ymd y m d then Ok (mk_date y m d) else Raise ValueError.

(** A [datetime] as the storage layer hands it out. *)
Definition valid_datetime (x : datetime) : bool :=
  valid_ymd (dt_year x) (dt_month x) (dt_day x) &&
  (0 <=? dt_hour x) && (dt_hour x <? 24) &&
  (0 <=? dt_minute x) && (dt_minute x <? 60) &&
  (0 <=? dt_second x) && (dt_second x <? 60).

(** ** [sorted]

    CPython's [sorted(iterable, key=..., reverse=...)] compares with [<]
    only and is stable; with [reverse=True] it reverses the list, sorts
    it ascending and reverses the outcome, which keeps equal elements in
    their original order.  The ascending pass is embedded as a stable
    insertion sort. *)
Section Sorted.
Context {A : Type} (lt : A → A → bool).

(** [x] stood before every element of [l] in the input: it is placed
    before the first element that is not below it. *)
Fixpoint insert_sorted (x : A) (l : list A) : list A :=
  match l with
  | [] => [x]
  | y :: l' => if lt y x then y :: insert_sorted x l' else x :: y :: l'
  end.

Definition stable_sort (l : list A) : list A := foldr insert_sorted [] l.

Definition py_sorted (reverse : bool) (l : list A) : list A :=
  if reverse then list.reverse (stable_sort (list.reverse l)) else stable_sort l.
End Sorted.

(** "[x] is not above [y]" for the [<] of a sort: the order an ascending
    pass establishes between an element and the next one. *)
Definition not_below {A} (lt : A → A → bool) (x y : A) : Prop := lt y x = false.

(** [<] on the key extracted by [key=...]. *)
Definition key_lt {A} (key : A → nat) (a b : A) : bool := (key a <? key b)%nat.

(** [<] on Python tuples [(year, month)]: lexicographic. *)
Definition pair_lt (p q : Z * Z) : bool :=
  (p.1 <? q.1) || ((p.1 =? q.1) && (p.2 <? q.2)).

(** ** [collections.Counter], [set] and [dict] *)

(** [Counter(keys)]: one increment per element. *)
Definition Counter (keys : list (Z * Z)) : gmap (Z * Z) nat :=
  foldl (λ m k, <[k := S (default 0%nat (m !! k))]> m) ∅ keys.

(** [counter[k]]: a missing key of a [Counter] reads as 0. *)
Definition counter_get (c : gmap (Z * Z) nat) (k : Z * Z) : nat :=
  default 0%nat (c !! k).

(** [dict(pairs)]: a later pair overrides an earlier one. *)
Definition py_dict (pairs : list (Z * nat)) : gmap Z nat :=
  foldl (λ m kv, <[kv.1 := kv.2]> m) ∅ pairs.

(** [d[k]] on a plain [dict]: [KeyError] when absent. *)
Definition dict_get (d : gmap Z nat) (k : Z) : outcome nat :=
  match d !! k with
  | Some v => Ok v
  | None => Raise KeyError
  end.

(** ** The relational store *)

(** Modelled from the spec: [models.py] is not part of the sources at
    hand.  An article belongs to one namespace (the namespace of its app
    configuration), has a publication date, a published flag and zero or
    more authors through an association relation; its tags are the
    tagged items that point at it. *)
Record Article := mk_article {
  art_pk : Z;
  art_namespace : string;
  art_publishing_date : datetime;
  art_is_published : bool;
  art_authors : gset Z
}.

(** [aldryn_people.models.Person]: an identity and a name. *)
Record Person := mk_person { person_pk : Z; person_name : string }.

(** [taggit.models.Tag]. *)
Record Tag := mk_tag { tag_pk : Z; tag_name : string }.

(** [taggit.models.TaggedItem]: a generic association row from a tag to
    the object [ti_object_id] of the model [ti_content_type]. *)
Record TaggedItem := mk_tagged_item {
  ti_pk : Z;
  ti_tag : Z;
  ti_content_type : Z;
  ti_object_id : Z
}.

#[global] Instance Article_eq_dec : EqDecision Article.
Proof. solve_decision. Defined.
#[global] Instance Person_eq_dec : EqDecision Person.
Proof. solve_decision. Defined.
#[global] Instance Tag_eq_dec : EqDecision Tag.
Proof. solve_decision. Defined.
#[global] Instance TaggedItem_eq_dec : EqDecision TaggedItem.
Proof. solve_decision. Defined.

(** The tables, each in its storage order, and the content type that
    [ContentType.objects.get_for_model] gives for the article model. *)
Record Store := mk_store {
  articles : list Article;
  persons : list Person;
  tags : list Tag;
  tagged_items : list TaggedItem;
  article_content_type : Z
}.

(** The requests the module makes, by the table they read.  The content
    type of a model is asked of Django's content-type manager, which
    answers from its cache or with a SELECT of its own. *)
Inductive query :=
  | SelectArticle
  | SelectPerson
  | LookupContentType
  | SelectTaggedItem
  | SelectTag.

Record World := mk_world { w_store : Store; w_log : list query }.

(** ** The query monad: state over the world, exceptions *)
Definition DB (A : Type) : Type := World → outcome A * World.

Definition ret {A} (a : A) : DB A := λ w, (Ok a, w).

Definition bind {A B} (m : DB A) (k : A → DB B) : DB B :=
  λ w, match m w with
       | (Ok a, w') => k a w'
       | (Raise e, w') => (Raise e, w')
       end.

(** A pure Python step that may raise. *)
Definition lift {A} (o : outcome A) : DB A := λ w, (o, w).

(** One SELECT: reads the store, leaves it as it is, and is logged. *)
Definition select {A} (q : query) (rows : Store → A) : DB A :=
  λ w, (Ok (rows (w_store w)),
        {| w_store := w_store w; w_log := w_log w ++ [q] |}).

Declare Scope db_scope.
Delimit Scope db_scope with db.
Notation "'do' x <- m ; k" := (bind m (λ x, k))
  (at level 10, x name, m at level 100, k at level 200) : db_scope.

Definition outcome_bind {A B} (o : outcome A) (k : A → outcome B) : outcome B :=
  match o with
  | Ok a => k a
  | Raise e => Raise e
  end.

(** A list comprehension whose body may raise: left to right, the first
    exception ends it. *)
Fixpoint comprehension {A B} (f : A → outcome B) (l : list A) : outcome (list B) :=
  match l with
  | [] => Ok []
  | x :: l' =>
      outcome_bind (f x) (λ y,
      outcome_bind (comprehension f l') (λ ys, Ok (y :: ys)))
  end.

(** ** Row operations behind the ORM calls *)

(** A lazy queryset over the article table: the condition accumulated by
    its [filter] calls.  Nothing is read before it is evaluated. *)
Record ArticleQuerySet := mk_qs { qs_where : Article → bool }.

Definition qs_filter (p : Article → bool) (qs : ArticleQuerySet) : ArticleQuerySet :=
  {| qs_where := λ a, qs_where qs a && p a |}.

(** The rows a queryset denotes in a store. *)
Definition qs_rows (qs : ArticleQuerySet) (s : Store) : list Article :=
  filter (λ a, qs_where qs a = true) (articles s).

(** Evaluation (iteration, [bool(...)]): one SELECT on the article table. *)
Definition qs_eval (qs : ArticleQuerySet) : DB (list Article) :=
  select SelectArticle (qs_rows qs).

(** [qs.values_list(field, flat=True)], evaluated. *)
Definition qs_values_list {B} (field : Article → B) (qs : ArticleQuerySet) : DB (list B) :=
  select SelectArticle (λ s, field <$> qs_rows qs s).

(** [.values(k).annotate(n=Count(k))]: GROUP BY with a row count, as a
    scan that opens a group at the first row of each key. *)
Section GroupCount.
Context {K : Type} `{EqDecision K}.

Fixpoint bump (k : K) (acc : list (K * nat)) : list (K * nat) :=
  match acc with
  | [] => [(k, 1%nat)]
  | (k', c) :: acc' =>
      if decide (k = k') then (k', S c) :: acc' else (k', c) :: bump k acc'
  end.

Definition group_count (ks : list K) : list (K * nat) :=
  foldl (λ acc k, bump k acc) [] ks.
End GroupCount.

(** [.order_by('-field')]: ORDER BY field DESC; rows with equal values
    stay in the order the scan produced them. *)
Definition order_by_desc {A} (key : A → nat) (l : list A) : list A :=
  stable_sort (λ a b, (key b <? key a)%nat) l.

(** ** The module *)

(** The records [get_months] returns:
    [{'date': ..., 'num_articles': ...}]. *)
Record MonthRecord := mk_month { mr_date : date; mr_num_articles : nat }.

(** A [Person] of the [get_authors] queryset with its annotation. *)
Record AuthorCount := mk_author_count { ac_person : Person; ac_num_articles : nat }.

(** A [Tag] object after [tag.num_articles = ...]. *)
Record TagCount := mk_tag_count { tc_tag : Tag; tc_num_articles : nat }.

Open Scope db_scope.

(** [RelatedManager.get_query_set]: the whole article table
    ([select_related] adds columns to the rows, it drops none). *)
Definition get_query_set : ArticleQuerySet := {| qs_where := λ _, true |}.

(** [ArticleQuerySet.published]. *)
Definition qs_published (self : ArticleQuerySet) : ArticleQuerySet :=
  qs_filter art_is_published self.

(** [RelatedManager.published], as the rows its queryset yields. *)
Definition published : DB (list Article) :=
  qs_eval (qs_published get_query_set).

(** [self.filter(app_config__namespace=namespace)]. *)
Definition in_namespace (namespace : string) : ArticleQuerySet :=
  qs_filter (λ a, bool_decide (art_namespace a = namespace)) get_query_set.

(** [RelatedManager.get_months]. *)
Definition get_months (namespace : string) : DB (list MonthRecord) :=
  let articles := in_namespace namespace in
  do dates <- qs_values_list art_publishing_date articles;
  let dates := (λ x, (dt_year x, dt_month x)) <$> dates in
  let date_counter := Counter dates in
  let dates : gset (Z * Z) := list_to_set dates in
  let dates := py_sorted pair_lt true (elements dates) in
  do months <- lift (comprehension (λ '(year, month),
      outcome_bind (date_new year month 3) (λ d,
      Ok {| mr_date := d;
            mr_num_articles := counter_get date_counter (year, month) |}))
    dates);
  ret months.

(** [RelatedManager.get_authors], as the rows its queryset yields: the
    persons joined to their articles, restricted to the namespace,
    grouped by person with the count of joined rows, by count
    descending. *)
Definition get_authors (namespace : string) : DB (list AuthorCount) :=
  select SelectPerson (λ s,
    let joined :=
      persons s ≫= λ p,
        pair p <$> filter (λ a, person_pk p ∈ art_authors a) (articles s) in
    let rows := filter (λ pa, art_namespace pa.2 = namespace) joined in
    let annotated := group_count (fst <$> rows) in
    order_by_desc ac_num_articles
      ((λ pc, {| ac_person := pc.1; ac_num_articles := pc.2 |}) <$> annotated)).

(** The tagged items [get_tags] selects for a queryset of articles: those
    of the content type of the article model whose object id is among
    the primary keys of [articles]. *)
Definition tagged_rows (articles : ArticleQuerySet) (s : Store) : list TaggedItem :=
  filter (λ ti, ti_content_type ti = article_content_type s
                ∧ ti_object_id ti ∈ art_pk <$> qs_rows articles s)
         (tagged_items s).

(** [TaggedItem.bulk_lookup_kwargs(articles)]: the lookups
    [content_type] and [object_id__in]; the content type is the one the
    content-type manager gives for the article model. *)
Definition bulk_lookup_kwargs (articles : ArticleQuerySet) : DB (Z * ArticleQuerySet) :=
  select LookupContentType (λ s, (article_content_type s, articles)).

(** The [TaggedItem.objects.filter] call with these lookups. *)
Definition tagged_rows_for (kwargs : Z * ArticleQuerySet) (s : Store) : list TaggedItem :=
  filter (λ ti, ti_content_type ti = kwargs.1
                ∧ ti_object_id ti ∈ art_pk <$> qs_rows kwargs.2 s)
         (tagged_items s).

(** [Tag.objects.filter(pk__in=keys)], evaluated: for an empty
    collection of keys the ORM knows the result to be empty and sends no
    statement. *)
Definition tags_with_pk_in (keys : gset Z) : DB (list Tag) :=
  if decide (keys = ∅) then ret []
  else select SelectTag (λ s, filter (λ t, tag_pk t ∈ keys) (tags s)).

(** [RelatedManager.get_tags]. *)
Definition get_tags (namespace : string) : DB (list TagCount) :=
  let articles := in_namespace namespace in
  do found <- qs_eval articles;
  match found with
  | [] => ret []
  | _ :: _ =>
      do kwargs <- bulk_lookup_kwargs articles;
      do counted <- select SelectTaggedItem (λ s,
          group_count (ti_tag <$> tagged_rows_for kwargs s));
      let counted_tags := py_dict counted in
      do tags <- tags_with_pk_in (dom counted_tags);
      do tags <- lift (comprehension (λ tag,
          outcome_bind (dict_get counted_tags (tag_pk tag)) (λ n,
          Ok {| tc_tag := tag; tc_num_articles := n |}))
        tags);
      ret (py_sorted (key_lt tc_num_articles) true tags)
  end.

Close Scope db_scope.

(** ** Notions the properties are stated with *)

(** How often [k] occurs in [ks]. *)
Definition occurrences {K} `{EqDecision K} (k : K) (ks : list K) : nat :=
  length (filter (λ k', k' = k) ks).

(** The count an annotated row list holds for [k]; 0 when it has none. *)
Fixpoint assoc_count {K} `{EqDecision K} (k : K) (acc : list (K * nat)) : nat :=
  match acc with
  | [] => 0%nat
  | (k', c) :: acc' => if decide (k = k') then c else assoc_count k acc'
  end.

(** The articles of a namespace, whatever their published flag. *)
Definition articles_in (namespace : string) (s : Store) : list Article :=
  filter (λ a, art_namespace a = namespace) (articles s).

(** The [(year, month)] of an article's publishing date, and of a month
    record's date. *)
Definition article_month (a : Article) : Z * Z :=
  (dt_year (art_publishing_date a), dt_month (art_publishing_date a)).

Definition record_month (r : MonthRecord) : Z * Z :=
  (date_year (mr_date r), date_month (mr_date r)).

(** The articles of a namespace published in a given month. *)
Definition articles_in_month (namespace : string) (s : Store) (ym : Z * Z) : nat :=
  length (filter (λ a, article_month a = ym) (articles_in namespace s)).

(** The articles of a namespace that list the person among their authors. *)
Definition articles_by (namespace : string) (s : Store) (p : Person) : nat :=
  length (filter (λ a, person_pk p ∈ art_authors a) (articles_in namespace s)).

(** A tagged item attaches the tag with key [t] to the article [a]. *)
Definition has_tag (s : Store) (t : Z) (a : Article) : Prop :=
  Exists (λ ti, ti_tag ti = t
                ∧ ti_content_type ti = article_content_type s
                ∧ ti_object_id ti = art_pk a) (tagged_items s).

(** The articles of a namespace that carry the tag with key [t]. *)
Definition articles_carrying (namespace : string) (s : Store) (t : Z) : nat :=
  length (filter (has_tag s t) (articles_in namespace s)).

(** The month buckets of a namespace: the distinct [(year, month)] of its
    articles, as [sorted(set(dates), reverse=True)] lists them. *)
Definition month_keys (namespace : string) (s : Store) : list (Z * Z) :=
  py_sorted pair_lt true
    (elements (list_to_set (article_month <$> articles_in namespace s)
                 : gset (Z * Z))).

(** The record [get_months] builds for a bucket. *)
Definition month_record (namespace : string) (s : Store) (ym : Z * Z) : MonthRecord :=
  {| mr_date := mk_date ym.1 ym.2 3;
     mr_num_articles := articles_in_month namespace s ym |}.

(** A computation leaves the store as it found it. *)
Definition read_only {A} (m : DB A) : Prop :=
  ∀ w, w_store (m w).2 = w_store w.

(** Two stores hold the same rows: a relational table is a collection of
    rows, and the order in which the storage layer hands them out is not
    part of what is stored. *)
Definition same_contents (s1 s2 : Store) : Prop :=
  articles s1 ≡ₚ articles s2 ∧
  persons s1 ≡ₚ persons s2 ∧
  tags s1 ≡ₚ tags s2 ∧
  tagged_items s1 ≡ₚ tagged_items s2 ∧
  article_content_type s1 = article_content_type s2.

(** The scenario of the specification, extended: namespace "blog-a" has
    two articles in March 2024 and one in April 2024, one of them not
    published; author 10 wrote three of them and author 11 one. *)
Definition scenario_store : Store := {|
  articles := [
    mk_article 1 "blog-a" (mk_datetime 2024 3 5 10 0 0) true {[10]};
    mk_article 2 "blog-a" (mk_datetime 2024 4 1 0 30 0) false {[10; 11]};
    mk_article 3 "blog-a" (mk_datetime 2024 3 31 23 59 59) true {[10]};
    mk_article 4 "blog-b" (mk_datetime 2023 12 31 8 0 0) true {[11]} ];
  persons := [ mk_person 11 "Y"; mk_person 10 "X"; mk_person 12 "Z" ];
  tags := [ mk_tag 1 "django"; mk_tag 2 "cms"; mk_tag 3 "news"; mk_tag 4 "misc" ];
  tagged_items := [
    mk_tagged_item 1 1 7 1; mk_tagged_item 2 2 7 1; mk_tagged_item 3 2 7 2;
    mk_tagged_item 4 3 7 3; mk_tagged_item 5 4 7 4; mk_tagged_item 6 4 8 1 ];
  article_content_type := 7
|}.

Definition scenario_world : World := {| w_store := scenario_store; w_log := [] |}.

(** The scenario with the tag "django" attached to article 1 by a second
    tagged item, which [unique_keys] below rules out. *)
Definition doubly_tagged_store : Store := {|
  articles := articles scenario_store;
  persons := persons scenario_store;
  tags := tags scenario_store;
  tagged_items := tagged_items scenario_store ++ [mk_tagged_item 7 1 7 1];
  article_content_type := article_content_type scenario_store
|}.

(** The scenario with the rows of every table handed out in the opposite
    order. *)
Definition reordered_store : Store := {|
  articles := reverse (articles scenario_store);
  persons := reverse (persons scenario_store);
  tags := reverse (tags scenario_store);
  tagged_items := reverse (tagged_items scenario_store);
  article_content_type := article_content_type scenario_store
|}.

Definition doubly_tagged_world : World :=
  {| w_store := doubly_tagged_store; w_log := [] |}.

Definition reordered_world : World :=
  {| w_store := reordered_store; w_log := [SelectArticle] |}.

(** Conditions on the rows of a store: publishing dates are calendar
    dates; primary keys are unique and a tag is attached to an object at
    most once. *)
Definition valid_dates (s : Store) : Prop :=
  Forall (λ a, valid_datetime (art_publishing_date a) = true) (articles s).

Definition tagged_key (ti : TaggedItem) : Z * Z * Z :=
  (ti_tag ti, ti_content_type ti, ti_object_id ti).

Record unique_keys (s : Store) : Prop := {
  article_pk_unique : NoDup (art_pk <$> articles s);
  person_pk_unique : NoDup (person_pk <$> persons s);
  tag_pk_unique : NoDup (tag_pk <$> tags s);
  tagged_item_pk_unique : NoDup (ti_pk <$> tagged_items s);
  tagged_once : NoDup (tagged_key <$> tagged_items s)
}.

(** ** Further notions *)

(** What [get_months] reads of an article: its namespace and the
    [(year, month)] of its publishing date. *)
Definition article_key (a : Article) : string * (Z * Z) :=
  (art_namespace a, article_month a).

(** The persons of the person table among the authors of an article. *)
Definition known_authors (s : Store) (a : Article) : nat :=
  length (filter (λ p, person_pk p ∈ art_authors a) (persons s)).

(** The tagged items with tag key [t] that point at an article of the
    namespace. *)
Definition tagged_row_count (namespace : string) (s : Store) (t : Z) : nat :=
  length (filter (λ ti, ti_tag ti = t)
            (tagged_rows (in_namespace namespace) s)).

(** Every tagged item refers to a row of the tag table. *)
Definition tags_resolve (s : Store) : Prop :=
  Forall (λ ti, ti_tag ti ∈ tag_pk <$> tags s) (tagged_items s).

(** The store with one more article, and with one more tagged item. *)
Definition add_article (a : Article) (s : Store) : Store :=
  {| articles := articles s ++ [a];
     persons := persons s;
     tags := tags s;
     tagged_items := tagged_items s;
     article_content_type := article_content_type s |}.

Definition add_tagged_item (ti : TaggedItem) (s : Store) : Store :=
  {| articles := articles s;
     persons := persons s;
     tags := tags s;
     tagged_items := tagged_items s ++ [ti];
     article_content_type := article_content_type s |}.

(** The scenario after some other calls, with one more article in
    namespace "blog-b". *)
Definition busier_world : World :=
  {| w_store :=
       add_article
         (mk_article 5 "blog-b" (mk_datetime 2025 1 1 0 0 0) true {[10]})
         scenario_store;
     w_log := [SelectTag] |}.

(** The scenario with the article table in another storage order and
    with other primary keys, days, flags and authors. *)
Definition shuffled_store : Store := {|
  articles := [
    mk_article 14 "blog-b" (mk_datetime 2023 12 1 0 0 0) false ∅;
    mk_article 13 "blog-a" (mk_datetime 2024 3 9 7 0 0) false {[12]};
    mk_article 12 "blog-a" (mk_datetime 2024 4 30 12 0 0) true ∅;
    mk_article 11 "blog-a" (mk_datetime 2024 3 1 0 0 0) false {[11]} ];
  persons := [];
  tags := [];
  tagged_items := [];
  article_content_type := 3
|}.

(** The store with the published flag of every article rewritten. *)
Definition with_flag (flag : Article → bool) (a : Article) : Article :=
  {| art_pk := art_pk a;
     art_namespace := art_namespace a;
     art_publishing_date := art_publishing_date a;
     art_is_published := flag a;
     art_authors := art_authors a |}.

Definition set_published (flag : Article → bool) (s : Store) : Store :=
  {| articles := with_flag flag <$> articles s;
     persons := persons s;
     tags := tags s;
     tagged_items := tagged_items s;
     article_content_type := article_content_type s |}.

(** A tagged item [get_tags] has to pass over for a namespace: it is of
    another content type, or its object is no article of the namespace. *)
Definition foreign_tagged_item (namespace : string) (s : Store) (ti : TaggedItem) : Prop :=
  ¬ (ti_content_type ti = article_content_type s
     ∧ ti_object_id ti ∈ art_pk <$> articles_in namespace s).

(** * Properties *)

(** ** [sorted]: permutation, order, stability *)
Section SortedFacts.
Context {A : Type} (lt : A → A → bool).
Hypothesis lt_asym : ∀ x y, lt x y = true → lt y x = false.

Local Abbreviation not_below := (not_below lt).

Lemma insert_sorted_perm x l : insert_sorted lt x l ≡ₚ x :: l.
Proof.
  induction l as [|y l IH]; simpl; [done|].
  destruct (lt y x); [|done].
  rewrite IH. apply Permutation_swap.
Qed.

Lemma stable_sort_perm l : stable_sort lt l ≡ₚ l.
Proof.
  induction l as [|x l IH]; simpl; [done|].
  by rewrite insert_sorted_perm, IH.
Qed.

Lemma py_sorted_perm r l : py_sorted lt r l ≡ₚ l.
Proof.
  destruct r; simpl.
  - by rewrite reverse_Permutation, stable_sort_perm, reverse_Permutation.
  - apply stable_sort_perm.
Qed.

Lemma elem_of_py_sorted r l x : x ∈ py_sorted lt r l ↔ x ∈ l.
Proof. by rewrite py_sorted_perm. Qed.

Lemma insert_sorted_hd x y l :
  not_below y x → HdRel not_below y l → HdRel not_below y (insert_sorted lt x l).
Proof.
  intros Hyx Hl. destruct l as [|z l]; simpl; [by constructor|].
  destruct (lt z x); constructor; [|done].
  by inv Hl.
Qed.

Lemma insert_sorted_Sorted x l :
  Sorted not_below l → Sorted not_below (insert_sorted lt x l).
Proof.
  induction 1 as [|y l Hl IH Hhd]; simpl; [by repeat constructor|].
  destruct (lt y x) eqn:Hyx.
  - constructor; [done|]. apply insert_sorted_hd; [|done].
    by apply lt_asym.
  - constructor; [by constructor|]. by constructor.
Qed.

Lemma stable_sort_Sorted l : Sorted not_below (stable_sort lt l).
Proof.
  induction l as [|x l IH]; simpl; [constructor|].
  by apply insert_sorted_Sorted.
Qed.

(** With [reverse=True] every element is followed by one that is not
    above it. *)
Lemma py_sorted_reverse_Sorted l :
  Sorted (flip not_below) (py_sorted lt true l).
Proof. apply Sorted_reverse, stable_sort_Sorted. Qed.

(** Stability: elements that [<] does not tell apart keep their
    relative order. *)
Section Stable.
Context (P : A → Prop) `{∀ x, Decision (P x)}.
Hypothesis P_ties : ∀ x y, P x → P y → lt x y = false.

Lemma insert_sorted_filter x l :
  filter P (insert_sorted lt x l) = filter P (x :: l).
Proof.
  induction l as [|y l IH]; simpl; [done|].
  destruct (lt y x) eqn:Hyx; [|done].
  rewrite filter_cons, IH, !filter_cons.
  destruct (decide (P y)) as [Hy|Hy]; [|done].
  destruct (decide (P x)) as [Hx|Hx]; [|done].
  rewrite (P_ties y x Hy Hx) in Hyx. discriminate.
Qed.

Lemma stable_sort_filter l : filter P (stable_sort lt l) = filter P l.
Proof.
  induction l as [|x l IH]; simpl; [done|].
  by rewrite insert_sorted_filter, !filter_cons, IH.
Qed.

Lemma py_sorted_filter r l : filter P (py_sorted lt r l) = filter P l.
Proof.
  destruct r; simpl; [|apply stable_sort_filter].
  by rewrite filter_reverse, stable_sort_filter, filter_reverse,
    reverse_involutive.
Qed.
End Stable.
End SortedFacts.

(** ** Tuples [(year, month)] under [<] *)

Lemma pair_lt_asym p q : pair_lt p q = true → pair_lt q p = false.
Proof. unfold pair_lt. destruct p, q; cbn [fst snd]. lia. Qed.

Lemma pair_lt_total p q : pair_lt p q = false → p ≠ q → pair_lt q p = true.
Proof.
  unfold pair_lt. destruct p as [a b], q as [c d]; cbn [fst snd].
  intros Hlt Hne.
  assert (a ≠ c ∨ b ≠ d) as Hd.
  { destruct (decide (a = c)) as [->|]; [right|by left]. congruence. }
  clear Hne. lia.
Qed.

Lemma pair_lt_trans p q r :
  pair_lt p q = true → pair_lt q r = true → pair_lt p r = true.
Proof. unfold pair_lt. destruct p, q, r; cbn [fst snd]. lia. Qed.

#[local] Instance pair_not_above_trans : Transitive (flip (not_below pair_lt)).
Proof.
  intros p q r. unfold flip, not_below, pair_lt.
  destruct p, q, r; cbn [fst snd]. lia.
Qed.

Lemma key_lt_asym {A} (key : A → nat) x y :
  key_lt key x y = true → key_lt key y x = false.
Proof. unfold key_lt. intros H%Nat.ltb_lt. apply Nat.ltb_ge. lia. Qed.

(** A list without duplicates that never rises falls strictly. *)
Lemma StronglySorted_strict (l : list (Z * Z)) :
  Sorted (flip (not_below pair_lt)) l → NoDup l →
  StronglySorted (λ p q, pair_lt q p = true) l.
Proof.
  intros Hs Hnd. apply Sorted_StronglySorted in Hs; [|apply _].
  induction Hs as [|p l Hs IH Hall]; [constructor|].
  apply NoDup_cons in Hnd as [Hp Hnd].
  constructor; [by apply IH|].
  apply Forall_forall. intros q Hq.
  rewrite Forall_forall in Hall.
  apply pair_lt_total; [by apply Hall|]. intros ->. done.
Qed.

(** ** Counting *)
Section Counting.
Context {K : Type} `{EqDecision K}.
Implicit Types (k : K) (ks : list K).

Lemma occurrences_cons k k' ks :
  occurrences k (k' :: ks) =
    ((if decide (k' = k) then 1 else 0) + occurrences k ks)%nat.
Proof. unfold occurrences. rewrite filter_cons. by case_decide. Qed.

Lemma occurrences_snoc k k' ks :
  occurrences k (ks ++ [k']) =
    (occurrences k ks + (if decide (k' = k) then 1 else 0))%nat.
Proof.
  unfold occurrences. rewrite filter_app, length_app, filter_cons.
  by case_decide.
Qed.

Lemma occurrences_pos k ks : (1 ≤ occurrences k ks)%nat ↔ k ∈ ks.
Proof.
  unfold occurrences. split.
  - destruct (filter _ ks) as [|x l] eqn:Hf; simpl; [lia|].
    intros _. assert (x ∈ filter (λ k', k' = k) ks) as Hx by (rewrite Hf; left).
    apply list_elem_of_filter in Hx as [-> ?]. done.
  - intros Hk. assert (k ∈ filter (λ k', k' = k) ks) as Hx
      by by apply list_elem_of_filter.
    destruct (filter _ ks); [by apply not_elem_of_nil in Hx|simpl; lia].
Qed.

Lemma occurrences_fmap {B} (f : B → K) k (l : list B) :
  occurrences k (f <$> l) = length (filter (λ x, f x = k) l).
Proof.
  unfold occurrences. induction l as [|x l IH]; [done|].
  rewrite fmap_cons, !filter_cons. case_decide; simpl; by rewrite IH.
Qed.

Lemma length_filter_split (P : K → Prop) `{∀ x, Decision (P x)} ks :
  length ks = (length (filter P ks) + length (filter (λ x, ¬ P x) ks))%nat.
Proof. by rewrite <-length_app, filter_app_complement. Qed.

(** Over the distinct keys, the occurrence counts add up to the length. *)
Lemma sum_occurrences (keys : list K) :
  NoDup keys → ∀ ks, (∀ k, k ∈ ks → k ∈ keys) →
  sum_list_with (λ k, occurrences k ks) keys = length ks.
Proof.
  induction 1 as [|k keys Hk Hnd IH]; intros ks Hin; simpl.
  - destruct ks as [|k ks]; [done|].
    specialize (Hin k ltac:(left)). by apply not_elem_of_nil in Hin.
  - rewrite (length_filter_split (λ k', k' = k) ks).
    f_equal. rewrite <-(IH (filter (λ k', ¬ k' = k) ks)).
    + clear IH Hin Hnd. induction keys as [|k' keys IH]; [done|].
      apply not_elem_of_cons in Hk as [Hne Hk]. simpl.
      rewrite (IH Hk). f_equal. unfold occurrences.
      rewrite list_filter_filter. f_equal.
      apply list_filter_iff. intros x. split; [|by intros [? _]].
      intros ->. split; [done|congruence].
    + intros k' [Hne Hk']%list_elem_of_filter.
      specialize (Hin k' Hk'). apply elem_of_cons in Hin as [?|?]; done.
Qed.
End Counting.

Lemma Counter_lookup (ks : list (Z * Z)) (m : gmap (Z * Z) nat) k :
  default 0%nat
    (foldl (λ m k, <[k := S (default 0%nat (m !! k))]> m) m ks !! k) =
  (default 0%nat (m !! k) + occurrences k ks)%nat.
Proof.
  revert m. induction ks as [|k' ks IH]; intros m; simpl.
  - unfold occurrences. simpl. lia.
  - rewrite IH, occurrences_cons, lookup_insert. case_decide as Hk; simpl.
    + subst. lia.
    + lia.
Qed.

(** [Counter(keys)[k]] is the number of occurrences of [k]. *)
Lemma counter_get_Counter ks k : counter_get (Counter ks) k = occurrences k ks.
Proof.
  unfold counter_get, Counter. rewrite Counter_lookup, lookup_empty. done.
Qed.

(** ** The month records *)

Lemma comprehension_total {A B} (f : A → outcome B) (g : A → B) l :
  (∀ x, x ∈ l → f x = Ok (g x)) → comprehension f l = Ok (g <$> l).
Proof.
  induction l as [|x l IH]; intros Hf; simpl; [done|].
  rewrite (Hf x) by left. simpl.
  rewrite IH; [done|]. intros y Hy. apply Hf. by right.
Qed.

Lemma valid_datetime_day3 x :
  valid_datetime x = true → valid_ymd (dt_year x) (dt_month x) 3 = true.
Proof.
  unfold valid_datetime, valid_ymd, days_in_month.
  repeat case_match; lia.
Qed.

Lemma qs_rows_in_namespace namespace s :
  qs_rows (in_namespace namespace) s = articles_in namespace s.
Proof.
  unfold qs_rows, articles_in. apply list_filter_iff. intros a. simpl.
  by rewrite bool_decide_eq_true.
Qed.

Lemma articles_in_month_occurrences namespace s ym :
  articles_in_month namespace s ym =
    occurrences ym (article_month <$> articles_in namespace s).
Proof. by rewrite occurrences_fmap. Qed.

Lemma elem_of_month_keys namespace s ym :
  ym ∈ month_keys namespace s ↔
  ∃ a, a ∈ articles_in namespace s ∧ article_month a = ym.
Proof.
  unfold month_keys.
  rewrite elem_of_py_sorted, elem_of_elements, elem_of_list_to_set,
    list_elem_of_fmap.
  split; [intros (a & -> & Ha)|intros (a & Ha & <-)]; eauto.
Qed.

Lemma month_keys_NoDup namespace s : NoDup (month_keys namespace s).
Proof. unfold month_keys. rewrite py_sorted_perm. apply NoDup_elements. Qed.

Lemma record_month_record namespace s ym :
  record_month (month_record namespace s ym) = ym.
Proof. by destruct ym. Qed.

(** With calendar dates in the store, [get_months] raises nothing: it
    sends one SELECT and returns the record of every bucket. *)
Lemma get_months_run namespace w :
  valid_dates (w_store w) →
  get_months namespace w =
    (Ok (month_record namespace (w_store w) <$> month_keys namespace (w_store w)),
     {| w_store := w_store w; w_log := w_log w ++ [SelectArticle] |}).
Proof.
  intros Hvalid. unfold get_months, bind, qs_values_list, select, lift, ret.
  rewrite <-list_fmap_compose, qs_rows_in_namespace.
  change ((λ x, (dt_year x, dt_month x)) ∘ art_publishing_date)
    with article_month.
  fold (month_keys namespace (w_store w)).
  rewrite (comprehension_total _ (month_record namespace (w_store w))); [done|].
  intros [y m] Hym. unfold date_new.
  apply elem_of_month_keys in Hym as (a & Ha & Hm).
  apply list_elem_of_filter in Ha as [_ Ha].
  unfold valid_dates in Hvalid. rewrite Forall_forall in Hvalid.
  specialize (Hvalid a Ha). apply valid_datetime_day3 in Hvalid.
  unfold article_month in Hm. injection Hm as <- <-. rewrite Hvalid. simpl.
  unfold month_record. simpl.
  by rewrite counter_get_Counter, articles_in_month_occurrences.
Qed.

Lemma sum_list_with_fmap {A B} (f : B → nat) (g : A → B) (l : list A) :
  sum_list_with f (g <$> l) = sum_list_with (f ∘ g) l.
Proof. induction l as [|x l IH]; [done|]. csimpl. by rewrite IH. Qed.

Lemma scenario_valid_dates : valid_dates scenario_store.
Proof. unfold valid_dates. by repeat constructor. Qed.

(** C1. [get_months] selects the articles of the namespace without
    looking at the published flag: the [num_articles] of the returned
    buckets add up to the number of all articles of the namespace,
    published and unpublished together. *)
Theorem get_months_counts_all_articles namespace w :
  valid_dates (w_store w) →
  ∃ months,
    (get_months namespace w).1 = Ok months ∧
    sum_list_with mr_num_articles months =
      length (articles_in namespace (w_store w)) ∧
    sum_list_with mr_num_articles months =
      (length (filter (λ a, art_is_published a = true)
                 (articles_in namespace (w_store w))) +
       length (filter (λ a, ¬ art_is_published a = true)
                 (articles_in namespace (w_store w))))%nat.
Proof.
  intros Hvalid. eexists. rewrite (get_months_run _ _ Hvalid).
  split; [done|].
  assert (sum_list_with mr_num_articles
            (month_record namespace (w_store w) <$>
               month_keys namespace (w_store w)) =
          length (articles_in namespace (w_store w))) as Hsum.
  { rewrite sum_list_with_fmap.
    rewrite <-(length_fmap article_month (articles_in namespace (w_store w))).
    rewrite <-(sum_occurrences (month_keys namespace (w_store w))).
    - induction (month_keys namespace (w_store w)) as [|ym l IH]; [done|].
      simpl. by rewrite IH, articles_in_month_occurrences.
    - apply month_keys_NoDup.
    - intros ym (a & -> & Ha)%list_elem_of_fmap.
      apply elem_of_month_keys. eauto. }
  split; [done|]. rewrite Hsum.
  apply (length_filter_split (λ a, art_is_published a = true)).
Qed.

Lemma get_months_counts_all_articles_witness :
  valid_dates (w_store scenario_world) ∧
  ∃ months,
    (get_months "blog-a" scenario_world).1 = Ok months ∧
    sum_list_with mr_num_articles months =
      length (articles_in "blog-a" (w_store scenario_world)) ∧
    sum_list_with mr_num_articles months =
      (length (filter (λ a, art_is_published a = true)
                 (articles_in "blog-a" (w_store scenario_world))) +
       length (filter (λ a, ¬ art_is_published a = true)
                 (articles_in "blog-a" (w_store scenario_world))))%nat.
Proof.
  split; [exact scenario_valid_dates|].
  apply (get_months_counts_all_articles "blog-a" scenario_world).
  exact scenario_valid_dates.
Defined.

Lemma month_keys_descending namespace s :
  StronglySorted (λ p q, pair_lt q p = true) (month_keys namespace s).
Proof.
  apply StronglySorted_strict; [|apply month_keys_NoDup].
  apply py_sorted_reverse_Sorted, pair_lt_asym.
Qed.

Lemma record_months namespace s (keys : list (Z * Z)) :
  record_month <$> (month_record namespace s <$> keys) = keys.
Proof.
  rewrite <-list_fmap_compose. rewrite <-(list_fmap_id keys) at 2.
  apply list_fmap_ext. intros _ ym _. apply record_month_record.
Qed.

(** C2. The list [get_months] returns has pairwise distinct
    (year, month) keys and falls strictly from each record to every
    later one. *)
Theorem get_months_distinct_descending namespace w :
  valid_dates (w_store w) →
  ∃ months,
    (get_months namespace w).1 = Ok months ∧
    NoDup (record_month <$> months) ∧
    StronglySorted
      (λ r1 r2, pair_lt (record_month r2) (record_month r1) = true) months.
Proof.
  intros Hvalid. eexists. rewrite (get_months_run _ _ Hvalid).
  split; [done|]. split.
  - rewrite record_months. apply month_keys_NoDup.
  - eapply StronglySorted_fmap; [|apply month_keys_descending].
    intros p q Hpq. by rewrite !record_month_record.
Qed.

Lemma get_months_distinct_descending_witness :
  valid_dates (w_store scenario_world) ∧
  ∃ months,
    (get_months "blog-a" scenario_world).1 = Ok months ∧
    NoDup (record_month <$> months) ∧
    StronglySorted
      (λ r1 r2, pair_lt (record_month r2) (record_month r1) = true) months.
Proof.
  split; [exact scenario_valid_dates|].
  apply (get_months_distinct_descending "blog-a" scenario_world).
  exact scenario_valid_dates.
Defined.

(** C7. Every record of [get_months] carries a date on the 3rd whose
    year and month are those of its bucket: the month of an article of
    the namespace, with the number of the namespace's articles of that
    very month as its count. *)
Theorem get_months_date_day_3 namespace w :
  valid_dates (w_store w) →
  ∃ months,
    (get_months namespace w).1 = Ok months ∧
    record_month <$> months = month_keys namespace (w_store w) ∧
    Forall (λ r,
      date_day (mr_date r) = 3 ∧
      (∃ a, a ∈ articles_in namespace (w_store w) ∧
            article_month a = record_month r) ∧
      mr_num_articles r =
        articles_in_month namespace (w_store w) (record_month r)) months.
Proof.
  intros Hvalid. eexists. rewrite (get_months_run _ _ Hvalid).
  split; [done|]. split; [apply record_months|].
  apply Forall_fmap, Forall_forall. intros ym Hym. simpl.
  rewrite record_month_record.
  split; [done|]. split; [|done]. by apply elem_of_month_keys.
Qed.

Lemma get_months_date_day_3_witness :
  valid_dates (w_store scenario_world) ∧
  ∃ months,
    (get_months "blog-a" scenario_world).1 = Ok months ∧
    record_month <$> months = month_keys "blog-a" (w_store scenario_world) ∧
    Forall (λ r,
      date_day (mr_date r) = 3 ∧
      (∃ a, a ∈ articles_in "blog-a" (w_store scenario_world) ∧
            article_month a = record_month r) ∧
      mr_num_articles r =
        articles_in_month "blog-a" (w_store scenario_world) (record_month r))
      months.
Proof.
  split; [exact scenario_valid_dates|].
  apply (get_months_date_day_3 "blog-a" scenario_world).
  exact scenario_valid_dates.
Defined.

(** The scenario of the specification: two articles in March 2024 and
    one in April 2024. *)
Example get_months_scenario :
  (get_months "blog-a" scenario_world).1 =
    Ok [ {| mr_date := mk_date 2024 4 3; mr_num_articles := 1 |};
         {| mr_date := mk_date 2024 3 3; mr_num_articles := 2 |} ].
Proof. vm_compute. reflexivity. Qed.

(** C10. Every bucket of [get_months] counts at least one article: a
    month is emitted only when some article of the namespace was
    published in it. *)
Theorem get_months_no_empty_bucket namespace w :
  valid_dates (w_store w) →
  ∃ months,
    (get_months namespace w).1 = Ok months ∧
    Forall (λ r, (1 ≤ mr_num_articles r)%nat) months.
Proof.
  intros Hvalid. eexists. rewrite (get_months_run _ _ Hvalid).
  split; [done|].
  apply Forall_fmap, Forall_forall. intros ym Hym. simpl.
  rewrite articles_in_month_occurrences. apply occurrences_pos.
  apply elem_of_month_keys in Hym as (a & Ha & <-).
  by apply list_elem_of_fmap_2.
Qed.

Lemma get_months_no_empty_bucket_witness :
  valid_dates (w_store scenario_world) ∧
  ∃ months,
    (get_months "blog-a" scenario_world).1 = Ok months ∧
    Forall (λ r, (1 ≤ mr_num_articles r)%nat) months.
Proof.
  split; [exact scenario_valid_dates|].
  apply (get_months_no_empty_bucket "blog-a" scenario_world).
  exact scenario_valid_dates.
Defined.

(** ** GROUP BY with a row count *)
Section GroupCountFacts.
Context {K : Type} `{EqDecision K}.
Implicit Types (k : K) (ks : list K) (acc : list (K * nat)).

Lemma assoc_count_bump k k0 acc :
  assoc_count k (bump k0 acc) =
    (assoc_count k acc + (if decide (k0 = k) then 1 else 0))%nat.
Proof.
  induction acc as [|[k' c] acc IH]; simpl.
  - destruct (decide (k = k0)), (decide (k0 = k)); congruence.
  - destruct (decide (k0 = k')) as [->|Hne]; simpl.
    + destruct (decide (k = k')) as [->|Hne'].
      * rewrite decide_True by done. lia.
      * rewrite decide_False by done. lia.
    + destruct (decide (k = k')) as [->|Hne'].
      * rewrite decide_False by done. lia.
      * apply IH.
Qed.

Lemma elem_of_bump_keys k k0 acc :
  k ∈ (bump k0 acc).*1 ↔ k = k0 ∨ k ∈ acc.*1.
Proof.
  induction acc as [|[k' c] acc IH]; simpl.
  - rewrite list_elem_of_singleton, elem_of_nil. tauto.
  - destruct (decide (k0 = k')) as [->|Hne]; csimpl.
    + rewrite !elem_of_cons. tauto.
    + rewrite !elem_of_cons, IH. tauto.
Qed.

Lemma NoDup_bump_keys k0 acc : NoDup acc.*1 → NoDup (bump k0 acc).*1.
Proof.
  induction acc as [|[k' c] acc IH]; simpl; intros Hnd.
  - apply NoDup_singleton.
  - apply NoDup_cons in Hnd as [Hk' Hnd].
    destruct (decide (k0 = k')) as [->|Hne]; csimpl.
    + by apply NoDup_cons.
    + apply NoDup_cons. split; [|by apply IH].
      rewrite elem_of_bump_keys. intros [?|?]; [congruence|done].
Qed.

Lemma bump_positive k0 acc :
  Forall (λ kc, (1 ≤ kc.2)%nat) acc →
  Forall (λ kc, (1 ≤ kc.2)%nat) (bump k0 acc).
Proof.
  induction 1 as [|[k' c] acc Hc Hacc IH]; simpl.
  - by repeat constructor.
  - destruct (decide (k0 = k')); constructor; simpl in *; auto with lia.
Qed.

Lemma group_count_snoc ks k :
  group_count (ks ++ [k]) = bump k (group_count ks).
Proof. unfold group_count. by rewrite foldl_snoc. Qed.

Lemma assoc_count_group_count k ks :
  assoc_count k (group_count ks) = occurrences k ks.
Proof.
  induction ks as [|k0 ks IH] using rev_ind; [done|].
  by rewrite group_count_snoc, assoc_count_bump, IH, occurrences_snoc.
Qed.

Lemma elem_of_group_count_keys k ks : k ∈ (group_count ks).*1 ↔ k ∈ ks.
Proof.
  induction ks as [|k0 ks IH] using rev_ind.
  - done.
  - rewrite group_count_snoc, elem_of_bump_keys, IH, elem_of_app,
      list_elem_of_singleton. tauto.
Qed.

Lemma NoDup_group_count ks : NoDup (group_count ks).*1.
Proof.
  induction ks as [|k0 ks IH] using rev_ind; [constructor|].
  rewrite group_count_snoc. by apply NoDup_bump_keys.
Qed.

Lemma group_count_positive ks :
  Forall (λ kc, (1 ≤ kc.2)%nat) (group_count ks).
Proof.
  induction ks as [|k0 ks IH] using rev_ind; [constructor|].
  rewrite group_count_snoc. by apply bump_positive.
Qed.

Lemma elem_of_assoc k c acc :
  NoDup acc.*1 → (k, c) ∈ acc ↔ k ∈ acc.*1 ∧ assoc_count k acc = c.
Proof.
  induction acc as [|[k' c'] acc IH]; csimpl; intros Hnd.
  - rewrite !elem_of_nil. tauto.
  - apply NoDup_cons in Hnd as [Hk' Hnd]. specialize (IH Hnd).
    rewrite !elem_of_cons, IH. destruct (decide (k = k')) as [->|Hne].
    + split; [intros [[= ->]|[? _]]; [tauto|done]|].
      intros [_ ->]. by left.
    + split; [intros [[= -> _]|[? ?]]; [done|tauto]|].
      intros [[?|?] ?]; [done|tauto].
Qed.

(** One row per key that occurs, holding its number of occurrences. *)
Lemma elem_of_group_count k c ks :
  (k, c) ∈ group_count ks ↔ k ∈ ks ∧ c = occurrences k ks.
Proof.
  rewrite elem_of_assoc by apply NoDup_group_count.
  rewrite elem_of_group_count_keys, assoc_count_group_count.
  split; intros [? ?]; done.
Qed.
End GroupCountFacts.

(** ** The author join *)

Lemma occurrences_app {K} `{EqDecision K} (k : K) (l1 l2 : list K) :
  occurrences k (l1 ++ l2) = (occurrences k l1 + occurrences k l2)%nat.
Proof. unfold occurrences. by rewrite filter_app, length_app. Qed.

Lemma occurrences_replicate {K} `{EqDecision K} (k q : K) (n : nat) :
  occurrences k (replicate n q) = if decide (q = k) then n else 0%nat.
Proof.
  induction n as [|n IH]; simpl.
  - by case_decide.
  - rewrite occurrences_cons, IH. case_decide; lia.
Qed.

Lemma occurrences_NoDup {K} `{EqDecision K} (k : K) (ks : list K) :
  NoDup ks → k ∈ ks → occurrences k ks = 1%nat.
Proof.
  induction 1 as [|k' ks Hk' Hnd IH]; intros Hk.
  - by apply elem_of_nil in Hk.
  - rewrite occurrences_cons. destruct (decide (k' = k)) as [->|Hne].
    + assert (¬ (1 ≤ occurrences k ks)%nat) by by rewrite occurrences_pos.
      lia.
    + apply elem_of_cons in Hk as [?|Hk]; [congruence|]. by rewrite IH.
Qed.

Lemma occurrences_bind_replicate {K} `{EqDecision K}
    (n : K → nat) (k : K) (ks : list K) :
  occurrences k (ks ≫= λ q, replicate (n q) q) = (occurrences k ks * n k)%nat.
Proof.
  induction ks as [|q ks IH]; [done|].
  rewrite bind_cons, occurrences_app, IH, occurrences_replicate,
    occurrences_cons.
  case_decide; subst; lia.
Qed.

Lemma join_rows_fst namespace (p : Person) (l : list Article) :
  (filter (λ pa : Person * Article, art_namespace pa.2 = namespace)
     (pair p <$> l)).*1
  = replicate (length (filter (λ a, art_namespace a = namespace) l)) p.
Proof.
  induction l as [|b l IH]; [done|].
  rewrite fmap_cons, !filter_cons. simpl.
  case_decide; csimpl; by rewrite IH.
Qed.

Lemma articles_by_join namespace s p :
  articles_by namespace s p =
    length (filter (λ a, art_namespace a = namespace)
              (filter (λ a, person_pk p ∈ art_authors a) (articles s))).
Proof.
  unfold articles_by, articles_in. rewrite !list_filter_filter. f_equal.
  apply list_filter_iff. intros a. tauto.
Qed.

(** The person column of the joined rows: every person once per article
    of the namespace written by them. *)
Lemma author_rows namespace s (ps : list Person) :
  (filter (λ pa : Person * Article, art_namespace pa.2 = namespace)
     (ps ≫= λ p,
        pair p <$> filter (λ a, person_pk p ∈ art_authors a) (articles s))).*1
  = ps ≫= λ p, replicate (articles_by namespace s p) p.
Proof.
  induction ps as [|p ps IH]; [done|].
  rewrite !bind_cons, filter_app, fmap_app, IH. f_equal.
  by rewrite join_rows_fst, articles_by_join.
Qed.

Lemma Sorted_weaken {A} (R1 R2 : relation A) l :
  (∀ x y, R1 x y → R2 x y) → Sorted R1 l → Sorted R2 l.
Proof.
  intros HR. induction 1 as [|x l Hs IH Hhd]; constructor; [done|].
  destruct Hhd; constructor; auto.
Qed.

Lemma order_by_desc_perm {A} (key : A → nat) l : order_by_desc key l ≡ₚ l.
Proof. apply stable_sort_perm. Qed.

Lemma order_by_desc_sorted {A} (key : A → nat) l :
  StronglySorted (λ a b, (key b ≤ key a)%nat) (order_by_desc key l).
Proof.
  apply Sorted_StronglySorted; [intros a b c; lia|].
  eapply Sorted_weaken;
    [|apply (stable_sort_Sorted (λ a b, (key b <? key a)%nat))].
  - unfold not_below. intros a b Hab%Nat.ltb_ge. done.
  - intros a b Hab%Nat.ltb_lt. apply Nat.ltb_ge. lia.
Qed.

Lemma scenario_unique_keys : unique_keys scenario_store.
Proof. split; apply (bool_decide_unpack _); vm_compute; exact I. Qed.

(** What [get_authors] yields: the grouped, annotated and ordered join. *)
Lemma get_authors_run namespace w :
  (get_authors namespace w).1 =
    Ok (order_by_desc ac_num_articles
          ((λ pc, {| ac_person := pc.1; ac_num_articles := pc.2 |}) <$>
             group_count
               (persons (w_store w) ≫= λ p,
                  replicate (articles_by namespace (w_store w) p) p))).
Proof.
  unfold get_authors, select. cbn [fst]. by rewrite author_rows.
Qed.

(** C4. [get_authors] returns exactly the persons with at least one
    article in the namespace, each once, annotated with the number of
    articles of the namespace they wrote, by that number descending. *)
Theorem get_authors_exact namespace w :
  unique_keys (w_store w) →
  ∃ authors,
    (get_authors namespace w).1 = Ok authors ∧
    (∀ p n, {| ac_person := p; ac_num_articles := n |} ∈ authors ↔
       p ∈ persons (w_store w) ∧
       (1 ≤ articles_by namespace (w_store w) p)%nat ∧
       n = articles_by namespace (w_store w) p) ∧
    NoDup (ac_person <$> authors) ∧
    StronglySorted
      (λ r1 r2, (ac_num_articles r2 ≤ ac_num_articles r1)%nat) authors.
Proof.
  intros Hkeys. eexists. split; [apply get_authors_run|].
  assert (NoDup (persons (w_store w))) as Hnd.
  { eapply NoDup_fmap_1, person_pk_unique, Hkeys. }
  split; [|split].
  - intros p n. rewrite order_by_desc_perm, list_elem_of_fmap. split.
    + intros ([q c] & [= -> ->] & Hqc). simpl in *.
      apply elem_of_group_count in Hqc as [Hq ->].
      apply occurrences_pos in Hq.
      rewrite occurrences_bind_replicate in *.
      assert (q ∈ persons (w_store w)) as Hin.
      { apply occurrences_pos. nia. }
      rewrite (occurrences_NoDup q _ Hnd Hin) in *.
      split; [done|]. lia.
    + intros (Hp & Hpos & ->). exists (p, articles_by namespace (w_store w) p).
      split; [done|]. apply elem_of_group_count.
      rewrite occurrences_bind_replicate, (occurrences_NoDup p _ Hnd Hp).
      split; [|lia]. apply occurrences_pos.
      rewrite occurrences_bind_replicate, (occurrences_NoDup p _ Hnd Hp). lia.
  - rewrite order_by_desc_perm, <-list_fmap_compose.
    apply NoDup_group_count.
  - apply order_by_desc_sorted.
Qed.

Lemma get_authors_exact_witness :
  unique_keys (w_store scenario_world) ∧
  ∃ authors,
    (get_authors "blog-a" scenario_world).1 = Ok authors ∧
    (∀ p n, {| ac_person := p; ac_num_articles := n |} ∈ authors ↔
       p ∈ persons (w_store scenario_world) ∧
       (1 ≤ articles_by "blog-a" (w_store scenario_world) p)%nat ∧
       n = articles_by "blog-a" (w_store scenario_world) p) ∧
    NoDup (ac_person <$> authors) ∧
    StronglySorted
      (λ r1 r2, (ac_num_articles r2 ≤ ac_num_articles r1)%nat) authors.
Proof.
  split; [exact scenario_unique_keys|].
  apply (get_authors_exact "blog-a" scenario_world).
  exact scenario_unique_keys.
Defined.

(** The scenario of the specification: X wrote three articles of
    "blog-a" and Y one. *)
Example get_authors_scenario :
  (get_authors "blog-a" scenario_world).1 =
    Ok [ {| ac_person := mk_person 10 "X"; ac_num_articles := 3 |};
         {| ac_person := mk_person 11 "Y"; ac_num_articles := 1 |} ].
Proof. vm_compute. reflexivity. Qed.

(** ** [dict] over the counted tags *)

Lemma py_dict_snoc l kv : py_dict (l ++ [kv]) = <[kv.1 := kv.2]> (py_dict l).
Proof. unfold py_dict. by rewrite foldl_snoc. Qed.

Lemma lookup_py_dict (l : list (Z * nat)) k c :
  NoDup l.*1 → py_dict l !! k = Some c ↔ (k, c) ∈ l.
Proof.
  induction l as [|[k0 c0] l IH] using rev_ind; intros Hnd.
  - unfold py_dict. simpl. rewrite lookup_empty, elem_of_nil. split; [done|tauto].
  - rewrite fmap_app in Hnd. apply NoDup_app in Hnd as (Hnd & Hfresh & _).
    rewrite py_dict_snoc, lookup_insert_Some, elem_of_app,
      list_elem_of_singleton, (IH Hnd). simpl. split.
    + intros [[-> ->]|[_ ?]]; [by right|by left].
    + intros [Hin|[= -> ->]]; [|by left]. right. split; [|done].
      intros ->. apply (Hfresh k); [|left].
      apply list_elem_of_fmap. by exists (k, c).
Qed.

(** ** Tagged items against articles *)

Lemma tagged_rows_unfold namespace s ti :
  ti ∈ tagged_rows (in_namespace namespace) s ↔
  ti ∈ tagged_items s ∧
  ti_content_type ti = article_content_type s ∧
  ∃ a, a ∈ articles_in namespace s ∧ ti_object_id ti = art_pk a.
Proof.
  unfold tagged_rows.
  rewrite list_elem_of_filter, qs_rows_in_namespace, list_elem_of_fmap.
  split.
  - intros [[? (a & ? & ?)] ?]. eauto.
  - intros (? & ? & a & ? & ?). eauto.
Qed.

(** When article keys are unique and no tag is attached twice to the same
    object, the tagged items of a tag that point into the namespace are
    as many as the articles of the namespace carrying it. *)
Lemma tagged_count_articles namespace s t :
  NoDup (art_pk <$> articles s) →
  NoDup (tagged_key <$> tagged_items s) →
  tagged_row_count namespace s t = articles_carrying namespace s t.
Proof.
  intros Harts Honce. unfold tagged_row_count, articles_carrying.
  set (rows := filter (λ ti, ti_tag ti = t)
                 (tagged_rows (in_namespace namespace) s)).
  set (arts := filter (has_tag s t) (articles_in namespace s)).
  rewrite <-(length_fmap ti_object_id rows), <-(length_fmap art_pk arts).
  apply Permutation_length, NoDup_Permutation.
  - assert (NoDup (tagged_key <$> rows)) as Hnd.
    { eapply sublist_NoDup; [apply Honce|].
      apply fmap_sublist. etrans; apply sublist_filter. }
    apply NoDup_fmap_2_strong; [|by eapply NoDup_fmap_1].
    intros x y Hx Hy Hoid.
    apply list_elem_of_filter in Hx as [Hxt Hx%tagged_rows_unfold].
    apply list_elem_of_filter in Hy as [Hyt Hy%tagged_rows_unfold].
    destruct Hx as (Hx & Hxc & _), Hy as (Hy & Hyc & _).
    assert (tagged_key x = tagged_key y) as Hk.
    { unfold tagged_key. congruence. }
    pose proof Honce as Hinj.
    clear -Hinj Hx Hy Hk. induction (tagged_items s) as [|z l IH]; [by inv Hx|].
    rewrite fmap_cons in Hinj. apply NoDup_cons in Hinj as [Hz Hinj].
    apply elem_of_cons in Hx as [->|Hx], Hy as [->|Hy]; [done| | |by apply IH].
    + exfalso. apply Hz. rewrite Hk. by apply list_elem_of_fmap_2.
    + exfalso. apply Hz. rewrite <-Hk. by apply list_elem_of_fmap_2.
  - eapply sublist_NoDup; [apply Harts|].
    apply fmap_sublist. etrans; apply sublist_filter.
  - intros o. rewrite !list_elem_of_fmap. split.
    + intros (ti & -> & [Ht Hti%tagged_rows_unfold]%list_elem_of_filter).
      destruct Hti as (Hti & Hct & a & Ha & Hoid).
      exists a. split; [done|]. apply list_elem_of_filter. split; [|done].
      apply Exists_exists. eauto.
    + intros (a & -> & [Htag Ha]%list_elem_of_filter).
      apply Exists_exists in Htag as (ti & Hti & Ht & Hct & Hoid).
      exists ti. split; [done|]. apply list_elem_of_filter. split; [done|].
      apply tagged_rows_unfold. eauto.
Qed.

Lemma articles_carrying_pos namespace s t :
  (1 ≤ articles_carrying namespace s t)%nat ↔
  ∃ a, a ∈ articles_in namespace s ∧ has_tag s t a.
Proof.
  unfold articles_carrying. split.
  - destruct (filter _ _) as [|a l] eqn:Hf; simpl; [lia|]. intros _.
    assert (a ∈ filter (has_tag s t) (articles_in namespace s)) as Ha
      by (rewrite Hf; left).
    apply list_elem_of_filter in Ha as [? ?]. eauto.
  - intros (a & Ha & Htag).
    assert (a ∈ filter (has_tag s t) (articles_in namespace s)) as Hin
      by by apply list_elem_of_filter.
    destruct (filter _ _); [by apply elem_of_nil in Hin|simpl; lia].
Qed.

(** ** The tag counts *)

Lemma counted_rows_lookup namespace s k c :
  py_dict (group_count (ti_tag <$> tagged_rows (in_namespace namespace) s)) !! k
    = Some c ↔
  (1 ≤ tagged_row_count namespace s k)%nat ∧
  c = tagged_row_count namespace s k.
Proof.
  rewrite lookup_py_dict by apply NoDup_group_count.
  rewrite elem_of_group_count, <-occurrences_pos.
  unfold tagged_row_count. by rewrite occurrences_fmap.
Qed.

Lemma dom_counted_rows namespace s k :
  k ∈ dom (py_dict (group_count
             (ti_tag <$> tagged_rows (in_namespace namespace) s))) ↔
  (1 ≤ tagged_row_count namespace s k)%nat.
Proof.
  rewrite elem_of_dom. split.
  - intros [c Hc]. by apply counted_rows_lookup in Hc as [? _].
  - intros Hpos. eexists. by apply counted_rows_lookup.
Qed.

Lemma tagged_row_count_elem namespace s ti :
  ti ∈ tagged_rows (in_namespace namespace) s →
  (1 ≤ tagged_row_count namespace s (ti_tag ti))%nat.
Proof.
  intros Hti. unfold tagged_row_count.
  assert (ti ∈ filter (λ ti', ti_tag ti' = ti_tag ti)
                 (tagged_rows (in_namespace namespace) s)) as Hin
    by by apply list_elem_of_filter.
  destruct (filter _ _); [by apply elem_of_nil in Hin|simpl; lia].
Qed.

(** No key was counted exactly when no tagged item was selected. *)
Lemma dom_counted_rows_empty namespace s :
  dom (py_dict (group_count
         (ti_tag <$> tagged_rows (in_namespace namespace) s))) = ∅ ↔
  tagged_rows (in_namespace namespace) s = [].
Proof.
  split.
  - intros Hdom.
    assert (∀ ti, ti ∉ tagged_rows (in_namespace namespace) s) as Hnone.
    { intros ti Hti%tagged_row_count_elem%dom_counted_rows.
      rewrite Hdom in Hti. by apply not_elem_of_empty in Hti. }
    destruct (tagged_rows _ s) as [|ti l]; [done|].
    exfalso. apply (Hnone ti). left.
  - intros Hrows. apply elem_of_equiv_empty_L.
    intros k Hk%dom_counted_rows. unfold tagged_row_count in Hk.
    rewrite Hrows in Hk. simpl in Hk. lia.
Qed.

Lemma tagged_rows_no_articles namespace s :
  articles_in namespace s = [] → tagged_rows (in_namespace namespace) s = [].
Proof.
  intros Hempty.
  destruct (tagged_rows (in_namespace namespace) s) as [|ti l] eqn:Hrows;
    [done|].
  assert (ti ∈ tagged_rows (in_namespace namespace) s) as Hti
    by (rewrite Hrows; left).
  apply tagged_rows_unfold in Hti as (_ & _ & a & Ha & _).
  rewrite Hempty in Ha. by apply elem_of_nil in Ha.
Qed.

Lemma no_counted_tags namespace s (l : list Tag) :
  tagged_rows (in_namespace namespace) s = [] →
  filter (λ t, (1 ≤ tagged_row_count namespace s (tag_pk t))%nat) l = [].
Proof.
  intros Hrows. induction l as [|t l IH]; [done|].
  rewrite filter_cons_False; [done|].
  unfold tagged_row_count. rewrite Hrows. simpl. lia.
Qed.

(** What [get_tags] does on any store: it raises nothing and returns the
    tags with a selected tagged item, annotated with their row counts,
    in [sorted] order; the requests it makes are those of the branches
    it takes. *)
Lemma get_tags_run_world namespace w :
  get_tags namespace w =
    match articles_in namespace (w_store w) with
    | [] =>
        (Ok [], {| w_store := w_store w; w_log := w_log w ++ [SelectArticle] |})
    | _ :: _ =>
        (Ok (py_sorted (key_lt tc_num_articles) true
               ((λ t, {| tc_tag := t;
                         tc_num_articles :=
                           tagged_row_count namespace (w_store w) (tag_pk t) |})
                  <$> filter (λ t, (1 ≤ tagged_row_count namespace (w_store w)
                                          (tag_pk t))%nat)
                        (tags (w_store w)))),
         {| w_store := w_store w;
            w_log := (((w_log w ++ [SelectArticle]) ++ [LookupContentType])
                        ++ [SelectTaggedItem])
                       ++ (if decide (tagged_rows (in_namespace namespace)
                                        (w_store w) = [])
                           then [] else [SelectTag]) |})
    end.
Proof.
  unfold get_tags, bind, qs_eval, bulk_lookup_kwargs, select, lift, ret.
  rewrite qs_rows_in_namespace.
  destruct (articles_in namespace (w_store w)) as [|a l]; [done|].
  cbn [w_store w_log].
  change (tagged_rows_for (article_content_type (w_store w),
                           in_namespace namespace) (w_store w))
    with (tagged_rows (in_namespace namespace) (w_store w)).
  unfold tags_with_pk_in. set (counted := py_dict _).
  destruct (decide (dom counted = ∅)) as [Hdom|Hdom].
  - apply dom_counted_rows_empty in Hdom.
    rewrite (no_counted_tags _ _ _ Hdom), decide_True by done.
    by rewrite app_nil_r.
  - rewrite decide_False by (by rewrite <-dom_counted_rows_empty).
    unfold select. cbn [w_store w_log].
    assert (filter (λ t, tag_pk t ∈ dom counted) (tags (w_store w)) =
            filter (λ t, (1 ≤ tagged_row_count namespace (w_store w)
                                (tag_pk t))%nat) (tags (w_store w))) as ->.
    { apply list_filter_iff. intros t. apply dom_counted_rows. }
    erewrite comprehension_total; [done|].
    intros t [Hpos _]%list_elem_of_filter. unfold dict_get.
    assert (counted !! tag_pk t =
            Some (tagged_row_count namespace (w_store w) (tag_pk t))) as ->.
    { by apply counted_rows_lookup. }
    done.
Qed.

Lemma get_tags_run_any namespace w :
  (get_tags namespace w).1 =
    match articles_in namespace (w_store w) with
    | [] => Ok []
    | _ :: _ =>
        Ok (py_sorted (key_lt tc_num_articles) true
              ((λ t, {| tc_tag := t;
                        tc_num_articles :=
                          tagged_row_count namespace (w_store w) (tag_pk t) |})
                 <$> filter (λ t, (1 ≤ tagged_row_count namespace (w_store w)
                                         (tag_pk t))%nat)
                       (tags (w_store w))))
    end.
Proof.
  rewrite get_tags_run_world.
  by destruct (articles_in namespace (w_store w)).
Qed.

Lemma tagged_row_count_pos namespace s t :
  (1 ≤ tagged_row_count namespace s t)%nat ↔
  ∃ a, a ∈ articles_in namespace s ∧ has_tag s t a.
Proof.
  unfold tagged_row_count. split.
  - destruct (filter _ _) as [|ti l] eqn:Hf; simpl; [lia|]. intros _.
    assert (ti ∈ filter (λ ti, ti_tag ti = t)
                   (tagged_rows (in_namespace namespace) s)) as Hti
      by (rewrite Hf; left).
    apply list_elem_of_filter in Hti as [Ht Hti%tagged_rows_unfold].
    destruct Hti as (Hti & Hct & a & Ha & Hoid).
    exists a. split; [done|]. apply Exists_exists. eauto.
  - intros (a & Ha & Htag).
    apply Exists_exists in Htag as (ti & Hti & Ht & Hct & Hoid).
    assert (ti ∈ filter (λ ti, ti_tag ti = t)
                   (tagged_rows (in_namespace namespace) s)) as Hin.
    { apply list_elem_of_filter. split; [done|].
      apply tagged_rows_unfold. eauto. }
    destruct (filter _ _); [by apply elem_of_nil in Hin|simpl; lia].
Qed.

Lemma filter_tag_rows namespace s (c : nat) (l : list Tag) :
  tc_tag <$> filter (λ r, tc_num_articles r = c)
    ((λ t, {| tc_tag := t;
              tc_num_articles := tagged_row_count namespace s (tag_pk t) |})
       <$> l)
  = filter (λ t, tagged_row_count namespace s (tag_pk t) = c) l.
Proof.
  induction l as [|t l IH]; [done|].
  rewrite fmap_cons, !filter_cons. simpl.
  case_decide; csimpl; by rewrite IH.
Qed.

Lemma py_sorted_reverse_descending {A} (key : A → nat) (l : list A) :
  StronglySorted (λ a b, (key b ≤ key a)%nat) (py_sorted (key_lt key) true l).
Proof.
  apply Sorted_StronglySorted; [intros a b c; lia|].
  eapply Sorted_weaken; [|apply py_sorted_reverse_Sorted, key_lt_asym].
  unfold flip, not_below, key_lt. intros a b Hab%Nat.ltb_ge. done.
Qed.



Lemma scenario_blog_a_inhabited :
  articles_in "blog-a" (w_store scenario_world) ≠ [].
Proof. vm_compute. discriminate. Qed.

Lemma doubly_tagged_tag_keys : NoDup (tag_pk <$> tags doubly_tagged_store).
Proof. apply (bool_decide_unpack _). vm_compute. exact I. Qed.

Lemma doubly_tagged_blog_a_inhabited :
  articles_in "blog-a" doubly_tagged_store ≠ [].
Proof. vm_compute. discriminate. Qed.


(** In the scenario, "cms" is on two articles of "blog-a"; "django" and
    "news" are on one each and keep their storage order. *)
Example get_tags_scenario :
  (get_tags "blog-a" scenario_world).1 =
    Ok [ {| tc_tag := mk_tag 2 "cms"; tc_num_articles := 2 |};
         {| tc_tag := mk_tag 1 "django"; tc_num_articles := 1 |};
         {| tc_tag := mk_tag 3 "news"; tc_num_articles := 1 |} ].
Proof. vm_compute. reflexivity. Qed.

(** [tagged_once] is what makes the row count of the tagged items the
    number of articles: a second tagged item for the same tag and
    article is one more row of the group. *)
Example get_tags_counts_tagged_items :
  (get_tags "blog-a" {| w_store := doubly_tagged_store; w_log := [] |}).1 =
    Ok [ {| tc_tag := mk_tag 1 "django"; tc_num_articles := 2 |};
         {| tc_tag := mk_tag 2 "cms"; tc_num_articles := 2 |};
         {| tc_tag := mk_tag 3 "news"; tc_num_articles := 1 |} ] ∧
  articles_carrying "blog-a" doubly_tagged_store 1 = 1%nat.
Proof. split; vm_compute; reflexivity. Qed.

(** ** Namespaces without articles *)

(** C5. On a namespace with zero articles [get_tags] returns the empty
    list at once: the article SELECT that finds the namespace empty is
    the only statement sent, no tagged-item or tag query follows. *)
Theorem get_tags_short_circuit namespace w :
  articles_in namespace (w_store w) = [] →
  get_tags namespace w =
    (Ok [], {| w_store := w_store w; w_log := w_log w ++ [SelectArticle] |}).
Proof.
  intros Hempty. unfold get_tags, bind, qs_eval, select, ret.
  by rewrite qs_rows_in_namespace, Hempty.
Qed.

Lemma scenario_blog_c_empty :
  articles_in "blog-c" (w_store scenario_world) = [].
Proof. vm_compute. reflexivity. Qed.

Lemma get_tags_short_circuit_witness :
  articles_in "blog-c" (w_store scenario_world) = [] ∧
  get_tags "blog-c" scenario_world =
    (Ok [], {| w_store := w_store scenario_world;
               w_log := w_log scenario_world ++ [SelectArticle] |}).
Proof.
  split; [exact scenario_blog_c_empty|].
  apply (get_tags_short_circuit "blog-c" scenario_world).
  exact scenario_blog_c_empty.
Defined.

Lemma no_author_rows namespace s (ps : list Person) :
  articles_in namespace s = [] →
  ps ≫= (λ p, replicate (articles_by namespace s p) p) = [].
Proof.
  intros Hempty. induction ps as [|p ps IH]; [done|].
  rewrite bind_cons, IH. unfold articles_by. by rewrite Hempty.
Qed.

(** C6. For a namespace that matches no article, [get_months],
    [get_authors] and [get_tags] each return the empty sequence and
    raise nothing. *)
Theorem unknown_namespace_empty namespace w :
  articles_in namespace (w_store w) = [] →
  (get_months namespace w).1 = Ok [] ∧
  (get_authors namespace w).1 = Ok [] ∧
  (get_tags namespace w).1 = Ok [].
Proof.
  intros Hempty. split; [|split].
  - unfold get_months, bind, qs_values_list, select, lift, ret.
    rewrite qs_rows_in_namespace, Hempty. cbn [fmap list_fmap].
    by rewrite list_to_set_nil, elements_empty.
  - by rewrite get_authors_run, no_author_rows.
  - unfold get_tags, bind, qs_eval, select, ret.
    by rewrite qs_rows_in_namespace, Hempty.
Qed.

Lemma unknown_namespace_empty_witness :
  articles_in "blog-c" (w_store scenario_world) = [] ∧
  (get_months "blog-c" scenario_world).1 = Ok [] ∧
  (get_authors "blog-c" scenario_world).1 = Ok [] ∧
  (get_tags "blog-c" scenario_world).1 = Ok [].
Proof.
  split; [exact scenario_blog_c_empty|].
  apply (unknown_namespace_empty "blog-c" scenario_world).
  exact scenario_blog_c_empty.
Defined.

(** ** [published] *)

Lemma qs_published_rows (self : ArticleQuerySet) s :
  qs_rows (qs_published self) s =
    filter (λ a, art_is_published a = true) (qs_rows self s).
Proof.
  unfold qs_rows, qs_published, qs_filter. rewrite list_filter_filter.
  apply list_filter_iff. intros a. simpl. rewrite andb_true_iff. tauto.
Qed.

(** C8. [published] returns exactly the articles of the full article set
    whose published flag is true, in storage order, and leaves the
    store as it was. *)
Theorem published_exact w :
  ∃ rows w',
    published w = (Ok rows, w') ∧
    w_store w' = w_store w ∧
    rows = filter (λ a, art_is_published a = true) (articles (w_store w)) ∧
    (∀ a, a ∈ rows ↔ a ∈ articles (w_store w) ∧ art_is_published a = true).
Proof.
  eexists _, _. split; [reflexivity|]. split; [done|].
  assert (qs_rows (qs_published get_query_set) (w_store w) =
          filter (λ a, art_is_published a = true) (articles (w_store w)))
    as Hrows.
  { rewrite qs_published_rows. f_equal. unfold qs_rows. simpl.
    induction (articles (w_store w)) as [|a l IH]; [done|].
    by rewrite filter_cons_True, IH. }
  split; [done|]. intros a. rewrite Hrows, list_elem_of_filter. tauto.
Qed.

(** ** Calling again *)
Section ReadOnly.
Context {A B : Type}.

Lemma ret_read_only (a : A) : read_only (ret a).
Proof. by intros w. Qed.

Lemma lift_read_only (o : outcome A) : read_only (lift o).
Proof. by intros w. Qed.

Lemma select_read_only q (rows : Store → A) : read_only (select q rows).
Proof. by intros w. Qed.

Lemma bind_read_only (m : DB A) (k : A → DB B) :
  read_only m → (∀ a, read_only (k a)) → read_only (bind m k).
Proof.
  intros Hm Hk w. unfold bind. specialize (Hm w).
  destruct (m w) as [[a|e] w']; simpl in *; [|done].
  by rewrite Hk.
Qed.
End ReadOnly.

Lemma tags_with_pk_in_read_only keys : read_only (tags_with_pk_in keys).
Proof.
  unfold tags_with_pk_in. case_decide.
  - apply ret_read_only.
  - apply select_read_only.
Qed.

Create HintDb db_query.
#[local] Hint Resolve ret_read_only lift_read_only select_read_only
  bind_read_only tags_with_pk_in_read_only : db_query.

Lemma get_months_read_only namespace : read_only (get_months namespace).
Proof. unfold get_months, qs_values_list. auto 10 with db_query. Qed.

Lemma get_authors_read_only namespace : read_only (get_authors namespace).
Proof. unfold get_authors. auto with db_query. Qed.

Lemma get_tags_read_only namespace : read_only (get_tags namespace).
Proof.
  unfold get_tags, qs_eval, bulk_lookup_kwargs.
  apply bind_read_only; [auto with db_query|].
  intros [|a l]; auto 10 with db_query.
Qed.

Lemma comprehension_ext {A B} (f g : A → outcome B) (l : list A) :
  (∀ x, f x = g x) → comprehension f l = comprehension g l.
Proof.
  intros Hfg. induction l as [|x l IH]; [done|].
  simpl. by rewrite Hfg, IH.
Qed.

(** The months of the namespace's articles, in whatever order, decide
    what [get_months] returns or raises. *)
Lemma get_months_same_months namespace w1 w2 :
  article_month <$> articles_in namespace (w_store w1) ≡ₚ
    article_month <$> articles_in namespace (w_store w2) →
  (get_months namespace w1).1 = (get_months namespace w2).1.
Proof.
  intros Hperm. unfold get_months, bind, qs_values_list, select, lift, ret.
  rewrite <-!list_fmap_compose, !qs_rows_in_namespace.
  change ((λ x, (dt_year x, dt_month x)) ∘ art_publishing_date)
    with article_month.
  assert (list_to_set (article_month <$> articles_in namespace (w_store w1))
            =@{gset (Z * Z)}
          list_to_set (article_month <$> articles_in namespace (w_store w2)))
    as -> by by apply list_to_set_perm_L.
  lazymatch goal with
  | |- ?lhs = ?rhs =>
      lazymatch lhs with
      | context [comprehension ?f1 ?l] =>
          lazymatch rhs with
          | context [comprehension ?f2 _] =>
              rewrite (comprehension_ext f1 f2 l)
          end
      end
  end; [by destruct (comprehension _ _)|].
  intros [year month]. simpl. rewrite !counter_get_Counter.
  assert (occurrences (year, month)
            (article_month <$> articles_in namespace (w_store w1)) =
          occurrences (year, month)
            (article_month <$> articles_in namespace (w_store w2))) as ->.
  { unfold occurrences. by rewrite Hperm. }
  done.
Qed.

Lemma articles_by_perm namespace s1 s2 p :
  articles s1 ≡ₚ articles s2 →
  articles_by namespace s1 p = articles_by namespace s2 p.
Proof.
  intros Hperm. unfold articles_by, articles_in. by rewrite Hperm.
Qed.

(** A GROUP BY over the same rows has the same groups. *)
Lemma group_count_perm {K} `{EqDecision K} (ks1 ks2 : list K) :
  ks1 ≡ₚ ks2 → group_count ks1 ≡ₚ group_count ks2.
Proof.
  intros Hperm. apply NoDup_Permutation.
  - eapply NoDup_fmap_1, NoDup_group_count.
  - eapply NoDup_fmap_1, NoDup_group_count.
  - intros [k c]. rewrite !elem_of_group_count. unfold occurrences.
    by rewrite Hperm.
Qed.

Lemma tagged_rows_perm namespace s1 s2 :
  same_contents s1 s2 →
  tagged_rows (in_namespace namespace) s1 ≡ₚ
    tagged_rows (in_namespace namespace) s2.
Proof.
  intros (Harts & _ & _ & Hitems & Hct). unfold tagged_rows.
  rewrite !qs_rows_in_namespace, <-Hitems.
  assert (filter
            (λ ti, ti_content_type ti = article_content_type s1
                   ∧ ti_object_id ti ∈ art_pk <$> articles_in namespace s1)
            (tagged_items s1) =
          filter
            (λ ti, ti_content_type ti = article_content_type s2
                   ∧ ti_object_id ti ∈ art_pk <$> articles_in namespace s2)
            (tagged_items s1)) as Hfilter.
  { apply list_filter_iff. intros ti. rewrite Hct. unfold articles_in.
    by rewrite Harts. }
  by rewrite Hfilter.
Qed.

Lemma tagged_row_count_perm namespace s1 s2 t :
  same_contents s1 s2 →
  tagged_row_count namespace s1 t = tagged_row_count namespace s2 t.
Proof.
  intros Hsame. unfold tagged_row_count.
  by rewrite (tagged_rows_perm _ _ _ Hsame).
Qed.

(** Two descending lists of counts with the same elements are equal. *)
Lemma descending_counts_unique (l1 l2 : list nat) :
  StronglySorted (λ a b, (b ≤ a)%nat) l1 →
  StronglySorted (λ a b, (b ≤ a)%nat) l2 →
  l1 ≡ₚ l2 → l1 = l2.
Proof.
  apply StronglySorted_unique. intros a b ??. lia.
Qed.

Lemma reordered_same_contents : same_contents reordered_store scenario_store.
Proof. repeat split; apply reverse_Permutation. Qed.




(** * Further properties *)

(** ** [get_tags] on any store *)

(** X1. [get_tags] never raises, whatever the store holds: the
    [counted_tags[tag.pk]] lookup cannot miss, because the tags were
    selected by those very keys.  For a namespace without articles it
    only evaluates the article queryset; otherwise it goes on to the
    content-type lookup and the tagged-item query, and to the tag query
    only when some tagged item was counted. *)
Theorem get_tags_never_raises namespace w :
  ∃ result,
    (get_tags namespace w).1 = Ok result ∧
    w_log (get_tags namespace w).2 =
      w_log w ++
        (if decide (articles_in namespace (w_store w) = [])
         then [SelectArticle]
         else [SelectArticle; LookupContentType; SelectTaggedItem] ++
              (if decide (tagged_rows (in_namespace namespace) (w_store w) = [])
               then [] else [SelectTag])).
Proof.
  rewrite get_tags_run_world.
  destruct (articles_in namespace (w_store w)) as [|a l]; eexists.
  - split; [done|]. by rewrite decide_True.
  - split; [done|]. rewrite (decide_False (P := a :: l = [])) by done.
    cbn [snd w_log]. by rewrite <-!app_assoc.
Qed.

(** X2. On any store, with or without uniqueness guarantees, a tag comes
    back from [get_tags] exactly when the tag table has it and some
    tagged item of the article content type links it to an article of
    the namespace; its [num_articles] is the number of those tagged
    items. *)
Theorem get_tags_counts_rows namespace w :
  ∃ result,
    (get_tags namespace w).1 = Ok result ∧
    ∀ t n, {| tc_tag := t; tc_num_articles := n |} ∈ result ↔
           t ∈ tags (w_store w) ∧
           (1 ≤ n)%nat ∧
           n = tagged_row_count namespace (w_store w) (tag_pk t).
Proof.
  rewrite get_tags_run_any.
  destruct (articles_in namespace (w_store w)) as [|a l] eqn:Harts; eexists.
  - split; [done|]. intros t n. rewrite elem_of_nil. split; [done|].
    intros (_ & Hpos & ->). unfold tagged_row_count in Hpos.
    rewrite tagged_rows_no_articles in Hpos by done. simpl in Hpos. lia.
  - split; [done|]. intros t n.
    rewrite elem_of_py_sorted, list_elem_of_fmap. split.
    + intros (t' & [= -> ->] & [? ?]%list_elem_of_filter). done.
    + intros (Ht & Hpos & ->). exists t. split; [done|].
      by apply list_elem_of_filter.
Qed.

(** ** What the results depend on *)

Lemma tagged_rows_articles_in namespace s1 s2 :
  articles_in namespace s1 = articles_in namespace s2 →
  tagged_items s1 = tagged_items s2 →
  article_content_type s1 = article_content_type s2 →
  tagged_rows (in_namespace namespace) s1 =
    tagged_rows (in_namespace namespace) s2.
Proof.
  intros Harts Hitems Hct. unfold tagged_rows.
  rewrite !qs_rows_in_namespace, Harts, Hitems.
  apply list_filter_iff. intros ti. by rewrite Hct.
Qed.

Lemma get_months_articles_in namespace w1 w2 :
  articles_in namespace (w_store w1) = articles_in namespace (w_store w2) →
  (get_months namespace w1).1 = (get_months namespace w2).1.
Proof.
  intros Harts. unfold get_months, bind, qs_values_list, select, lift, ret.
  rewrite !qs_rows_in_namespace, Harts.
  by destruct (comprehension _ _).
Qed.

(** X3. The three queries read a namespace and nothing beside it: two
    stores that agree on the articles of the namespace, and on the
    person, tag and tagged-item tables, give the same months, authors
    and tags, whatever articles the other namespaces hold. *)
Theorem other_namespaces_irrelevant namespace w1 w2 :
  articles_in namespace (w_store w1) = articles_in namespace (w_store w2) →
  persons (w_store w1) = persons (w_store w2) →
  tags (w_store w1) = tags (w_store w2) →
  tagged_items (w_store w1) = tagged_items (w_store w2) →
  article_content_type (w_store w1) = article_content_type (w_store w2) →
  (get_months namespace w1).1 = (get_months namespace w2).1 ∧
  (get_authors namespace w1).1 = (get_authors namespace w2).1 ∧
  (get_tags namespace w1).1 = (get_tags namespace w2).1.
Proof.
  intros Harts Hpersons Htags Hitems Hct. split; [|split].
  - by apply get_months_articles_in.
  - rewrite !get_authors_run, Hpersons. unfold articles_by.
    by rewrite Harts.
  - rewrite !get_tags_run_any, Harts, Htags. unfold tagged_row_count.
    rewrite (tagged_rows_articles_in _ _ _ Harts Hitems Hct).
    by destruct (articles_in namespace (w_store w2)).
Qed.

Lemma other_namespaces_irrelevant_witness :
  articles_in "blog-a" (w_store scenario_world)
    = articles_in "blog-a" (w_store busier_world) ∧
  persons (w_store scenario_world) = persons (w_store busier_world) ∧
  tags (w_store scenario_world) = tags (w_store busier_world) ∧
  tagged_items (w_store scenario_world) = tagged_items (w_store busier_world) ∧
  article_content_type (w_store scenario_world)
    = article_content_type (w_store busier_world) ∧
  (get_months "blog-a" scenario_world).1 = (get_months "blog-a" busier_world).1 ∧
  (get_authors "blog-a" scenario_world).1
    = (get_authors "blog-a" busier_world).1 ∧
  (get_tags "blog-a" scenario_world).1 = (get_tags "blog-a" busier_world).1.
Proof.
  repeat (split; [vm_compute; reflexivity|]).
  apply (other_namespaces_irrelevant "blog-a" scenario_world busier_world);
    vm_compute; reflexivity.
Defined.

(** X4. A tagged item of another content type, or one whose object is
    no article of the namespace, changes nothing in [get_tags]. *)
Theorem get_tags_ignores_foreign_items namespace s ti log1 log2 :
  foreign_tagged_item namespace s ti →
  (get_tags namespace {| w_store := add_tagged_item ti s; w_log := log1 |}).1 =
  (get_tags namespace {| w_store := s; w_log := log2 |}).1.
Proof.
  intros Hforeign. rewrite !get_tags_run_any. cbn [w_store].
  change (articles_in namespace (add_tagged_item ti s))
    with (articles_in namespace s).
  change (tags (add_tagged_item ti s)) with (tags s).
  assert (tagged_rows (in_namespace namespace) (add_tagged_item ti s) =
          tagged_rows (in_namespace namespace) s) as Hrows.
  { unfold tagged_rows. cbn [tagged_items add_tagged_item].
    rewrite filter_app, filter_cons_False, filter_nil, app_nil_r; [done|].
    unfold foreign_tagged_item in Hforeign.
    by rewrite qs_rows_in_namespace. }
  unfold tagged_row_count. rewrite Hrows.
  by destruct (articles_in namespace s).
Qed.

Lemma get_tags_ignores_foreign_items_witness :
  foreign_tagged_item "blog-a" scenario_store (mk_tagged_item 9 1 8 2) ∧
  (get_tags "blog-a"
     {| w_store := add_tagged_item (mk_tagged_item 9 1 8 2) scenario_store;
        w_log := [] |}).1 =
  (get_tags "blog-a" {| w_store := scenario_store; w_log := [] |}).1.
Proof.
  assert (foreign_tagged_item "blog-a" scenario_store (mk_tagged_item 9 1 8 2))
    as Hforeign.
  { intros [Hct _]. vm_compute in Hct. discriminate. }
  split; [exact Hforeign|].
  by apply (get_tags_ignores_foreign_items "blog-a" scenario_store).
Defined.

(** ** Totals *)

Lemma sum_bump {K} `{EqDecision K} (k : K) (acc : list (K * nat)) :
  sum_list_with snd (bump k acc) = S (sum_list_with snd acc).
Proof.
  induction acc as [|[k' c] acc IH]; simpl; [done|].
  case_decide; simpl; [done|]. rewrite IH. lia.
Qed.

(** The counts of a GROUP BY add up to the number of rows. *)
Lemma sum_group_count {K} `{EqDecision K} (ks : list K) :
  sum_list_with snd (group_count ks) = length ks.
Proof.
  induction ks as [|k ks IH] using rev_ind; [done|].
  rewrite group_count_snoc, sum_bump, IH, length_app. simpl. lia.
Qed.

Lemma length_bind_replicate {K} (n : K → nat) (ks : list K) :
  length (ks ≫= λ k, replicate (n k) k) = sum_list_with n ks.
Proof.
  induction ks as [|k ks IH]; [done|].
  by rewrite bind_cons, length_app, length_replicate, IH.
Qed.

(** Counting the author links by person or by article. *)
Lemma author_links_swap (ps : list Person) (l : list Article) :
  sum_list_with
    (λ p, length (filter (λ a, person_pk p ∈ art_authors a) l)) ps =
  sum_list_with
    (λ a, length (filter (λ p, person_pk p ∈ art_authors a) ps)) l.
Proof.
  induction ps as [|p ps IH]; simpl.
  - induction l as [|a l IHl]; [done|]. simpl. by rewrite <-IHl.
  - rewrite IH. clear IH. induction l as [|a l IHl]; [done|].
    simpl. rewrite !filter_cons, <-IHl.
    destruct (decide (person_pk p ∈ art_authors a)); simpl; lia.
Qed.

(** X5. The [num_articles] of the authors [get_authors] returns add up
    to the number of author links of the namespace: every article of the
    namespace counts once for each of its authors that the person table
    has, so an article without author adds nothing and one with two
    authors adds two. *)
Theorem get_authors_total namespace w :
  ∃ authors,
    (get_authors namespace w).1 = Ok authors ∧
    sum_list_with ac_num_articles authors =
      sum_list_with (known_authors (w_store w))
        (articles_in namespace (w_store w)).
Proof.
  eexists. split; [apply get_authors_run|].
  rewrite order_by_desc_perm, sum_list_with_fmap.
  change (ac_num_articles ∘ _) with (@snd Person nat).
  rewrite sum_group_count, length_bind_replicate.
  apply author_links_swap.
Qed.

Lemma sum_filter_pos {A} (f : A → nat) (l : list A) :
  sum_list_with f (filter (λ x, (1 ≤ f x)%nat) l) = sum_list_with f l.
Proof.
  induction l as [|x l IH]; [done|].
  rewrite filter_cons. case_decide; simpl; rewrite IH; lia.
Qed.

Lemma scenario_tags_resolve : tags_resolve scenario_store.
Proof. apply (bool_decide_unpack _). vm_compute. exact I. Qed.

(** X6. When tag keys are unique and every tagged item refers to a row
    of the tag table, the [num_articles] of the tags [get_tags] returns
    add up to the number of tagged items of the article content type
    that point at an article of the namespace. *)
Theorem get_tags_total namespace w :
  NoDup (tag_pk <$> tags (w_store w)) →
  tags_resolve (w_store w) →
  ∃ result,
    (get_tags namespace w).1 = Ok result ∧
    sum_list_with tc_num_articles result =
      length (tagged_rows (in_namespace namespace) (w_store w)).
Proof.
  intros Hnd Hfk. rewrite get_tags_run_any.
  destruct (articles_in namespace (w_store w)) as [|a l] eqn:Harts; eexists.
  - split; [done|]. by rewrite tagged_rows_no_articles.
  - split; [done|].
    rewrite py_sorted_perm, sum_list_with_fmap.
    change (tc_num_articles ∘ _)
      with (λ t, tagged_row_count namespace (w_store w) (tag_pk t)).
    rewrite (sum_filter_pos
               (λ t, tagged_row_count namespace (w_store w) (tag_pk t))).
    rewrite <-(length_fmap ti_tag (tagged_rows _ _)).
    rewrite <-(sum_occurrences (tag_pk <$> tags (w_store w))).
    + rewrite sum_list_with_fmap. clear Hnd Hfk.
      induction (tags (w_store w)) as [|t ts IH]; [done|].
      simpl. rewrite IH. unfold tagged_row_count.
      by rewrite occurrences_fmap.
    + done.
    + intros k (ti & -> & Hti)%list_elem_of_fmap.
      apply list_elem_of_filter in Hti as [_ Hti].
      unfold tags_resolve in Hfk. rewrite Forall_forall in Hfk. by apply Hfk.
Qed.

Lemma get_tags_total_witness :
  NoDup (tag_pk <$> tags (w_store scenario_world)) ∧
  tags_resolve (w_store scenario_world) ∧
  ∃ result,
    (get_tags "blog-a" scenario_world).1 = Ok result ∧
    sum_list_with tc_num_articles result =
      length (tagged_rows (in_namespace "blog-a") (w_store scenario_world)).
Proof.
  split; [exact (tag_pk_unique _ scenario_unique_keys)|].
  split; [exact scenario_tags_resolve|].
  apply (get_tags_total "blog-a" scenario_world).
  - exact (tag_pk_unique _ scenario_unique_keys).
  - exact scenario_tags_resolve.
Defined.

(** ** [get_months] and the article table *)

Lemma articles_in_months namespace s :
  article_month <$> articles_in namespace s =
    snd <$> filter (λ x, x.1 = namespace) (article_key <$> articles s).
Proof.
  unfold articles_in. induction (articles s) as [|a l IH]; [done|].
  rewrite fmap_cons, !filter_cons. unfold article_key at 1. simpl.
  case_decide; csimpl; by rewrite IH.
Qed.

Lemma scenario_shuffled_valid_dates : valid_dates shuffled_store.
Proof. unfold valid_dates. by repeat constructor. Qed.

(** X7. [get_months] depends on the article table only through the
    collection of (namespace, year, month) of its rows: the storage
    order, the primary keys, the day and time of publication, the
    published flags and the authors do not enter the result, nor do the
    other tables. *)
Theorem get_months_order_independent namespace w1 w2 :
  valid_dates (w_store w1) →
  valid_dates (w_store w2) →
  article_key <$> articles (w_store w1) ≡ₚ article_key <$> articles (w_store w2) →
  (get_months namespace w1).1 = (get_months namespace w2).1.
Proof.
  intros Hv1 Hv2 Hperm.
  rewrite (get_months_run _ _ Hv1), (get_months_run _ _ Hv2). simpl. f_equal.
  assert (article_month <$> articles_in namespace (w_store w1) ≡ₚ
          article_month <$> articles_in namespace (w_store w2)) as Hmonths.
  { rewrite !articles_in_months. by rewrite Hperm. }
  assert (month_keys namespace (w_store w1) =
          month_keys namespace (w_store w2)) as ->.
  { unfold month_keys. f_equal. f_equal. by apply list_to_set_perm_L. }
  apply list_fmap_ext. intros _ ym _. unfold month_record. f_equal.
  rewrite !articles_in_month_occurrences. unfold occurrences.
  by rewrite Hmonths.
Qed.

Lemma scenario_shuffled_keys :
  article_key <$> articles (w_store scenario_world) ≡ₚ
  article_key <$> articles shuffled_store.
Proof.
  vm_compute.
  match goal with |- ?l ≡ₚ _ => symmetry; apply (reverse_Permutation l) end.
Qed.

Lemma get_months_order_independent_witness :
  valid_dates (w_store scenario_world) ∧
  valid_dates shuffled_store ∧
  article_key <$> articles (w_store scenario_world) ≡ₚ
    article_key <$> articles shuffled_store ∧
  (get_months "blog-a" scenario_world).1 =
    (get_months "blog-a" {| w_store := shuffled_store; w_log := [] |}).1.
Proof.
  split; [exact scenario_valid_dates|].
  split; [exact scenario_shuffled_valid_dates|].
  split; [exact scenario_shuffled_keys|].
  apply (get_months_order_independent "blog-a" scenario_world
           {| w_store := shuffled_store; w_log := [] |}).
  - exact scenario_valid_dates.
  - exact scenario_shuffled_valid_dates.
  - exact scenario_shuffled_keys.
Defined.

(** X8. No article of the namespace is lost by [get_months]: the result
    has a record for the (year, month) of each of them, that record
    counts at least this article, and it is the only record of that
    month. *)
Theorem get_months_covers_every_article namespace w :
  valid_dates (w_store w) →
  ∃ months,
    (get_months namespace w).1 = Ok months ∧
    ∀ a, a ∈ articles_in namespace (w_store w) →
      ∃ r, r ∈ months ∧
           record_month r = article_month a ∧
           (1 ≤ mr_num_articles r)%nat ∧
           ∀ r', r' ∈ months → record_month r' = article_month a → r' = r.
Proof.
  intros Hvalid. eexists. rewrite (get_months_run _ _ Hvalid).
  split; [done|]. intros a Ha.
  exists (month_record namespace (w_store w) (article_month a)).
  split; [|split; [|split]].
  - apply list_elem_of_fmap_2, elem_of_month_keys. eauto.
  - apply record_month_record.
  - simpl. rewrite articles_in_month_occurrences. apply occurrences_pos.
    by apply list_elem_of_fmap_2.
  - intros r' (ym & -> & _)%list_elem_of_fmap Hym.
    rewrite record_month_record in Hym. by subst.
Qed.

Lemma get_months_covers_every_article_witness :
  valid_dates (w_store scenario_world) ∧
  ∃ months,
    (get_months "blog-a" scenario_world).1 = Ok months ∧
    ∀ a, a ∈ articles_in "blog-a" (w_store scenario_world) →
      ∃ r, r ∈ months ∧
           record_month r = article_month a ∧
           (1 ≤ mr_num_articles r)%nat ∧
           ∀ r', r' ∈ months → record_month r' = article_month a → r' = r.
Proof.
  split; [exact scenario_valid_dates|].
  apply (get_months_covers_every_article "blog-a" scenario_world).
  exact scenario_valid_dates.
Defined.

(** ** Bounds *)

(** X9. No query reports more than the namespace holds.  With calendar
    publishing dates and unique person keys, [get_months] returns at
    most as many records as the namespace has articles, and no month
    and no author is given a [num_articles] above the number of articles
    of the namespace.  The same holds for every tag when article keys
    are unique and no tag is attached twice to the same object. *)
Theorem counts_bounded_by_namespace namespace w :
  valid_dates (w_store w) →
  NoDup (person_pk <$> persons (w_store w)) →
  NoDup (art_pk <$> articles (w_store w)) →
  NoDup (tagged_key <$> tagged_items (w_store w)) →
  ∃ months authors result,
    (get_months namespace w).1 = Ok months ∧
    (get_authors namespace w).1 = Ok authors ∧
    (get_tags namespace w).1 = Ok result ∧
    (length months ≤ length (articles_in namespace (w_store w)))%nat ∧
    Forall (λ r, (mr_num_articles r
                  ≤ length (articles_in namespace (w_store w)))%nat) months ∧
    Forall (λ r, (ac_num_articles r
                  ≤ length (articles_in namespace (w_store w)))%nat) authors ∧
    Forall (λ r, (tc_num_articles r
                  ≤ length (articles_in namespace (w_store w)))%nat) result.
Proof.
  intros Hvalid Hpersons Harts Honce.
  assert (NoDup (persons (w_store w))) as Hnd by by eapply NoDup_fmap_1.
  assert (∃ result,
            (get_tags namespace w).1 = Ok result ∧
            Forall (λ r, (tc_num_articles r
                          ≤ length (articles_in namespace (w_store w)))%nat)
              result) as (result & Hresult & Hbound).
  { rewrite get_tags_run_any.
    destruct (articles_in namespace (w_store w)) as [|a l] eqn:Hin; eexists.
    - split; [done|]. constructor.
    - split; [done|]. rewrite <-Hin, py_sorted_perm.
      apply Forall_fmap, Forall_forall. intros t _. simpl.
      rewrite (tagged_count_articles _ _ _ Harts Honce).
      apply length_filter. }
  eexists _, _, result.
  rewrite (get_months_run _ _ Hvalid), get_authors_run.
  split; [done|]. split; [done|]. split; [done|].
  split; [|split; [|split]]; [| | |done].
  - rewrite length_fmap.
    rewrite <-(length_fmap article_month (articles_in _ _)).
    apply submseteq_length, NoDup_submseteq; [apply month_keys_NoDup|].
    intros ym (a & Ha & <-)%elem_of_month_keys.
    by apply list_elem_of_fmap_2.
  - apply Forall_fmap, Forall_forall. intros ym _. simpl.
    apply length_filter.
  - rewrite order_by_desc_perm. apply Forall_fmap, Forall_forall.
    intros [p c] [Hp ->]%elem_of_group_count. simpl.
    apply occurrences_pos in Hp.
    rewrite occurrences_bind_replicate in *.
    assert (p ∈ persons (w_store w)) as Hin.
    { apply occurrences_pos. nia. }
    rewrite (occurrences_NoDup p _ Hnd Hin), Nat.mul_1_l.
    apply length_filter.
Qed.

Lemma counts_bounded_by_namespace_witness :
  valid_dates (w_store scenario_world) ∧
  NoDup (person_pk <$> persons (w_store scenario_world)) ∧
  NoDup (art_pk <$> articles (w_store scenario_world)) ∧
  NoDup (tagged_key <$> tagged_items (w_store scenario_world)) ∧
  ∃ months authors result,
    (get_months "blog-a" scenario_world).1 = Ok months ∧
    (get_authors "blog-a" scenario_world).1 = Ok authors ∧
    (get_tags "blog-a" scenario_world).1 = Ok result ∧
    (length months ≤ length (articles_in "blog-a" (w_store scenario_world)))%nat ∧
    Forall (λ r, (mr_num_articles r
                  ≤ length (articles_in "blog-a" (w_store scenario_world)))%nat)
      months ∧
    Forall (λ r, (ac_num_articles r
                  ≤ length (articles_in "blog-a" (w_store scenario_world)))%nat)
      authors ∧
    Forall (λ r, (tc_num_articles r
                  ≤ length (articles_in "blog-a" (w_store scenario_world)))%nat)
      result.
Proof.
  split; [exact scenario_valid_dates|].
  split; [exact (person_pk_unique _ scenario_unique_keys)|].
  split; [exact (article_pk_unique _ scenario_unique_keys)|].
  split; [exact (tagged_once _ scenario_unique_keys)|].
  apply (counts_bounded_by_namespace "blog-a" scenario_world).
  - exact scenario_valid_dates.
  - exact (person_pk_unique _ scenario_unique_keys).
  - exact (article_pk_unique _ scenario_unique_keys).
  - exact (tagged_once _ scenario_unique_keys).
Defined.

(** ** Chaining [published] *)

Lemma qs_filter_rows (p : Article → bool) (self : ArticleQuerySet) s :
  qs_rows (qs_filter p self) s = filter (λ a, p a = true) (qs_rows self s).
Proof.
  unfold qs_rows, qs_filter. rewrite list_filter_filter.
  apply list_filter_iff. intros a. simpl. rewrite andb_true_iff. tauto.
Qed.

(** X10. [published] chains like any queryset filter: applying it twice
    selects what applying it once selects, it commutes with every other
    filter, and on the articles of a namespace it leaves exactly the
    published articles of that namespace, in storage order. *)
Theorem published_chains (self : ArticleQuerySet) (p : Article → bool)
    namespace s :
  qs_rows (qs_published (qs_published self)) s
    = qs_rows (qs_published self) s ∧
  qs_rows (qs_published (qs_filter p self)) s
    = qs_rows (qs_filter p (qs_published self)) s ∧
  qs_rows (qs_published (in_namespace namespace)) s
    = filter (λ a, art_is_published a = true) (articles_in namespace s).
Proof.
  split; [|split].
  - rewrite !qs_published_rows, list_filter_filter.
    apply list_filter_iff. intros a. tauto.
  - rewrite qs_published_rows, !qs_filter_rows, qs_published_rows,
      !list_filter_filter.
    apply list_filter_iff. intros a. tauto.
  - by rewrite qs_published_rows, qs_rows_in_namespace.
Qed.

(** ** The published flag *)

Lemma articles_in_set_published flag namespace s :
  articles_in namespace (set_published flag s) =
    with_flag flag <$> articles_in namespace s.
Proof.
  unfold articles_in, set_published. simpl.
  induction (articles s) as [|a l IH]; [done|].
  rewrite fmap_cons, !filter_cons. simpl.
  case_decide; csimpl; by rewrite IH.
Qed.

Lemma filter_with_flag (P : Article → Prop) `{∀ a, Decision (P a)} flag l :
  (∀ a, P (with_flag flag a) ↔ P a) →
  length (filter P (with_flag flag <$> l)) = length (filter P l).
Proof.
  intros HP. induction l as [|a l IH]; [done|].
  rewrite fmap_cons, !filter_cons.
  destruct (decide (P (with_flag flag a))) as [Hf|Hf],
    (decide (P a)) as [Ha|Ha]; simpl; rewrite ?IH; try done.
  - exfalso. apply Ha, HP, Hf.
  - exfalso. apply Hf, HP, Ha.
Qed.

(** X11. None of the three queries looks at the published flag: with
    the flags of the article table rewritten in any way, [get_months],
    [get_authors] and [get_tags] return what they returned before, so
    unpublished articles count for months, authors and tags alike. *)
Theorem published_flag_irrelevant flag namespace s log :
  (get_months namespace {| w_store := set_published flag s; w_log := log |}).1
    = (get_months namespace {| w_store := s; w_log := log |}).1 ∧
  (get_authors namespace {| w_store := set_published flag s; w_log := log |}).1
    = (get_authors namespace {| w_store := s; w_log := log |}).1 ∧
  (get_tags namespace {| w_store := set_published flag s; w_log := log |}).1
    = (get_tags namespace {| w_store := s; w_log := log |}).1.
Proof.
  split; [|split].
  - unfold get_months, bind, qs_values_list, select, lift, ret.
    cbn [w_store]. rewrite !qs_rows_in_namespace, articles_in_set_published.
    rewrite <-(list_fmap_compose (with_flag flag) art_publishing_date).
    change (art_publishing_date ∘ with_flag flag) with art_publishing_date.
    by destruct (comprehension _ _).
  - rewrite !get_authors_run. cbn [w_store].
    change (persons (set_published flag s)) with (persons s).
    do 4 f_equal. apply list_bind_ext; [|done]. intros p. f_equal.
    unfold articles_by. rewrite articles_in_set_published.
    by apply filter_with_flag.
  - rewrite !get_tags_run_any. cbn [w_store].
    change (tags (set_published flag s)) with (tags s).
    assert (tagged_rows (in_namespace namespace) (set_published flag s) =
            tagged_rows (in_namespace namespace) s) as Hrows.
    { unfold tagged_rows. rewrite !qs_rows_in_namespace.
      rewrite articles_in_set_published, <-list_fmap_compose.
      done. }
    unfold tagged_row_count. rewrite Hrows, articles_in_set_published.
    by destruct (articles_in namespace s).
Qed.
